(** * Operation policies of an API: the state handlers of [Policies.tsx]

    A shallow embedding of the state-management core of
    [portals/publisher/.../Apis/Details/Policies/Policies.tsx]: the handlers
    [updateApiOperations], [updateAllApiOperations], [deleteApiOperation],
    [rearrangeApiOperations] and [saveApi], and the resolution callback of
    [fetchPolicies].

    Conventions of the embedding.
    - A JS array is a [list]; an object used as a dictionary (the
      [operationPolicies] of an operation, the [parameters] of a policy) is
      a [gmap string _]; an optional property is an [option].
    - Every handler starts from [cloneDeep(apiOperations)] and edits the
      clone in place. No handler writes through an object that two places
      of the tree share, so the clone is the same value and an in-place
      edit of the element [find] returned is an update at its index.
    - A handler that dereferences [undefined] throws a [TypeError] before
      [setApiOperations] is reached: its outcome is [None].
    - [uuidv4()] is an effect; the handlers that call it thread the number
      of identifiers handed out so far.
    - Rendering, the [updating] flag, the swagger fetch and [getInitState]
      (whose draws follow the property order of the objects) are left
      out. *)

From Stdlib Require Import ZArith Lia Sorted Ascii.
From stdpp Require Import base option list gmap strings pretty sorting.

Local Open Scope Z_scope.
Local Open Scope nat_scope.

(** ** Built-ins of the language and of the libraries the file imports *)

Module Js.

(** [Array.prototype.indexOf]: the first position holding [x], or [-1]. *)
Fixpoint indexOf {A} `{EqDecision A} (l : list A) (x : A) : Z :=
  match l with
  | [] => (-1)%Z
  | y :: l' =>
      if decide (y = x) then 0%Z
      else let r := indexOf l' x in
           if (r <? 0)%Z then (-1)%Z else (r + 1)%Z
  end.

(** [Array.prototype.splice(start, deleteCount)] with no inserted items:
    a negative [start] counts from the end of the array, and both
    arguments are clamped to the array (ECMAScript, 23.1.3.31). *)
Definition splice {A} (l : list A) (start deleteCount : Z) : list A :=
  let len := Z.of_nat (length l) in
  let actualStart :=
    if (start <? 0)%Z then Z.max (len + start) 0 else Z.min start len in
  let actualDeleteCount :=
    Z.min (Z.max deleteCount 0) (len - actualStart) in
  take (Z.to_nat actualStart) l
    ++ drop (Z.to_nat (actualStart + actualDeleteCount)) l.

(** JS truthiness of an optional string property: [undefined] and the
    empty string are falsy. *)
Definition truthy (s : option string) : bool :=
  match s with
  | None => false
  | Some s => negb (String.eqb s "")
  end.

(** [String.prototype.toLowerCase] restricted to ASCII letters; used to
    run the handlers on concrete HTTP method names. *)
Definition lower_ascii (c : ascii) : ascii :=
  let n := nat_of_ascii c in
  if (65 <=? n) && (n <=? 90) then ascii_of_nat (n + 32) else c.

Fixpoint lower_string (s : string) : string :=
  match s with
  | EmptyString => EmptyString
  | String c s' => String (lower_ascii c) (lower_string s')
  end.

(** [Map.prototype.set] on a [Map] kept as the list of its entries in
    insertion order: a key already present keeps its position and takes
    the new value, a new key goes to the end. *)
Fixpoint map_set {V} (m : list (string * V)) (k : string) (v : V)
    : list (string * V) :=
  match m with
  | [] => [(k, v)]
  | (k', v') :: m' =>
      if decide (k' = k) then (k', v) :: m' else (k', v') :: map_set m' k v
  end.

(** [Map.prototype.values], spread into an array. *)
Definition map_values {V} (m : list (string * V)) : list V := m.*2.

(** [Array.prototype.sort(comparefn)]: the sort is stable (ECMAScript
    2019), and [a] goes before [b] when [comparefn(a, b) < 0]. For a
    consistent comparator the stable sorted order is unique; it is
    computed here by insertion from the right. *)
Fixpoint sort_insert {A} (cmp : A → A → Z) (x : A) (l : list A) : list A :=
  match l with
  | [] => [x]
  | y :: l' =>
      if (cmp x y <=? 0)%Z then x :: y :: l' else y :: sort_insert cmp x l'
  end.

Definition sort {A} (cmp : A → A → Z) (l : list A) : list A :=
  foldr (sort_insert cmp) [] l.

End Js.

(** ** The data model ([./Types] and the API object) *)

Module Types.

(** An attached policy. [others] stands for the own properties the
    handlers never name (policy name, version, ...): they are carried
    along by the object spread. *)
Record ApiPolicy : Type := {
  policyId : string;
  parameters : gmap string string;
  uuid : option string;
  others : gmap string string;
}.

(** An operation of the API. [operationPolicies] may be missing (the
    source tests for it); [opOthers] stands for the own properties the
    handlers never name. *)
Record Operation : Type := {
  target : string;
  verb : string;
  operationPolicies : option (gmap string (list ApiPolicy));
  opOthers : gmap string string;
}.

(** A catalog entry. *)
Record Policy : Type := {
  id : string;
  displayName : string;
  supportedGateways : list string;
}.

(** The argument of [updateAPI]. *)
Record Payload : Type := {
  operations : list Operation;
  gatewayVendor : string;
}.

(** The two state cells [fetchPolicies] sets. *)
Record Catalog : Type := {
  allPolicies : list Policy;
  policies : list Policy;
}.

End Types.
Import Types.

(** [operationFlowPolicy.parameters = {...}] *)
Definition set_parameters (p : ApiPolicy) (ps : gmap string string) : ApiPolicy :=
  {| policyId := policyId p; parameters := ps;
     uuid := Types.uuid p; others := others p |}.

(** [{ ...updatedOperation, uuid }] *)
Definition set_uuid (p : ApiPolicy) (u : string) : ApiPolicy :=
  {| policyId := policyId p; parameters := parameters p;
     uuid := Some u; others := others p |}.

(** [delete policyItem.uuid] *)
Definition delete_uuid (p : ApiPolicy) : ApiPolicy :=
  {| policyId := policyId p; parameters := parameters p;
     uuid := None; others := others p |}.

(** [operation.operationPolicies[flow] = arr], where [pols] is the
    [operationPolicies] of the operation; the operation keeps its other
    properties and its other flows. *)
Definition set_flow (op : Operation) (pols : gmap string (list ApiPolicy))
    (flow : string) (arr : list ApiPolicy) : Operation :=
  {| target := target op; verb := verb op;
     operationPolicies := Some (<[flow := arr]> pols);
     opOthers := opOthers op |}.

(** [flow_list ops k flow arr]: the operation at index [k] of the tree has
    the list [arr] under [flow]. *)
Definition flow_list (ops : list Operation) (k : nat) (flow : string)
    (arr : list ApiPolicy) : Prop :=
  ∃ op pols, ops !! k = Some op ∧ operationPolicies op = Some pols
             ∧ pols !! flow = Some arr.

(** [attached ops a]: the attachment [a] sits in some flow of some operation
    of the tree. *)
Definition attached (ops : list Operation) (a : ApiPolicy) : Prop :=
  ∃ k flow arr, flow_list ops k flow arr ∧ a ∈ arr.

(** [only_flow_changed ops ops' i flow arr']: the tree [ops'] is [ops] with
    the list under [flow] of the operation at index [i] replaced by [arr'];
    every other operation, and the other properties and other flows of
    that operation, are as before. *)
Definition only_flow_changed (ops ops' : list Operation) (i : nat)
    (flow : string) (arr' : list ApiPolicy) : Prop :=
  length ops' = length ops
  ∧ (∀ k, k ≠ i → ops' !! k = ops !! k)
  ∧ ∃ op op' pols pols',
      ops !! i = Some op ∧ ops' !! i = Some op'
      ∧ target op' = target op ∧ verb op' = verb op
      ∧ opOthers op' = opOthers op
      ∧ operationPolicies op = Some pols ∧ operationPolicies op' = Some pols'
      ∧ pols' !! flow = Some arr'
      ∧ ∀ f, f ≠ flow → pols' !! f = pols !! f.

(** Modelled from the spec: [arrayMove] is imported from
    [@dnd-kit/sortable], which is not part of the sources. The spec words
    it as: remove the element at [oldIndex] and reinsert it at [newIndex]
    within the same list, shifting intervening elements; an index outside
    the list is treated as a no-op. *)
Definition arrayMove {A} (array : list A) (from to : nat) : list A :=
  match array !! from with
  | Some x =>
      if decide (to < length array)
      then let rest := delete from array in take to rest ++ x :: drop to rest
      else array
  | None => array
  end.

(** ** Sample data

    A tree of two operations on one target, used to run the handlers. *)

Definition rateLimit : ApiPolicy :=
  {| policyId := "P1"; parameters := {["a" := "1"]}; uuid := Some "U1";
     others := {["policyName" := "rateLimit"]} |}.

Definition addHeader : ApiPolicy :=
  {| policyId := "P2"; parameters := ∅; uuid := Some "U2";
     others := {["policyName" := "addHeader"]} |}.

Definition logMessage : ApiPolicy :=
  {| policyId := "P3"; parameters := ∅; uuid := Some "U3";
     others := {["policyName" := "logMessage"]} |}.

Definition getPetsPolicies : gmap string (list ApiPolicy) :=
  {["request" := [rateLimit; addHeader; logMessage]; "response" := [];
    "fault" := []]}.

Definition getPets : Operation :=
  {| target := "/pets"; verb := "GET";
     operationPolicies := Some getPetsPolicies;
     opOthers := {["authType" := "Application"]} |}.

Definition postPets : Operation :=
  {| target := "/pets"; verb := "POST";
     operationPolicies :=
       Some {["request" := []; "response" := [addHeader]; "fault" := []]};
     opOthers := ∅ |}.

(** A common policy and an API specific one with the same display name. *)
Definition commonRateLimit : Policy :=
  {| id := "c1"; displayName := "Rate Limit";
     supportedGateways := ["Synapse"] |}.

Definition apiRateLimit : Policy :=
  {| id := "a1"; displayName := "Rate Limit";
     supportedGateways := ["Synapse"; "ChoreoConnect"] |}.

Definition commonAddHeader : Policy :=
  {| id := "c2"; displayName := "Add Header";
     supportedGateways := ["Synapse"] |}.

(** A tree as [getInitState] leaves it with the generator [tagged_uuid]
    below, and an API specific policy for Choreo Connect alone. *)
Definition liveRateLimit : ApiPolicy :=
  {| policyId := "P1"; parameters := {["a" := "1"]}; uuid := Some "u0";
     others := ∅ |}.

Definition liveAddHeader : ApiPolicy :=
  {| policyId := "P2"; parameters := ∅; uuid := Some "u1"; others := ∅ |}.

Definition livePetsPolicies : gmap string (list ApiPolicy) :=
  {["request" := [liveRateLimit; liveAddHeader]]}.

Definition livePets : Operation :=
  {| target := "/pets"; verb := "GET";
     operationPolicies := Some livePetsPolicies; opOthers := ∅ |}.

Definition droppedPolicy : ApiPolicy :=
  {| policyId := "P1"; parameters := ∅; uuid := None; others := ∅ |}.

Definition apiRateLimitCC : Policy :=
  {| id := "a2"; displayName := "Rate Limit";
     supportedGateways := ["ChoreoConnect"] |}.

(** A generator whose identifiers are never empty, and an order of visit
    for [for ... in]: some enumeration of the own keys, each once. The
    theorems hold for every such enumeration, so they do not depend on the
    order the engine visits the keys in; this one serves the instances. *)
Definition tagged_uuid (k : nat) : string := String "u" (pretty k).

Definition own_keys (pols : gmap string (list ApiPolicy)) : list string :=
  (map_to_list pols).*1.

(** A generator that counts, and a comparator that orders by length. *)
Definition counter_uuid (k : nat) : string := pretty k.

Definition compare_length (a b : string) : Z :=
  (Z.of_nat (String.length a) - Z.of_nat (String.length b))%Z.

(** ** The component *)

Section Policies.

Local Set Default Proof Using "Type".

(** [String.prototype.toLowerCase] and [String.prototype.localeCompare]
    are left uninterpreted. *)
Variable toLowerCase : string → string.
Variable localeCompare : string → string → Z.

(** Modelled from the spec: [uuidv4] is imported from [./Utils], which is
    not part of the sources. The spec words the generator as returning a
    value unique among all identifiers generated during the process
    lifetime: [uuid_at k] is the identifier of the [k]-th call, and the
    theorems that rely on uniqueness assume [uuid_at] injective. *)
Variable uuid_at : nat → string.

(** *** Handlers that draw identifiers

    A handler maps the number of identifiers drawn so far to its outcome
    ([None] when it throws) and the number drawn afterwards. *)
Definition Handler (A : Type) : Type := nat → option A * nat.

Definition ret {A} (a : A) : Handler A := λ n, (Some a, n).

Definition throw {A} : Handler A := λ n, (None, n).

Definition bind {A B} (m : Handler A) (k : A → Handler B) : Handler B :=
  λ n, match m n with
       | (Some a, n') => k a n'
       | (None, n') => (None, n')
       end.

Definition uuidv4 : Handler string := λ n, (Some (uuid_at n), S n).

(** Dereferencing a value that may be [undefined]. *)
Definition defined {A} (o : option A) : Handler A :=
  match o with Some a => ret a | None => throw end.

Global Instance Handler_bind : MBind Handler := λ A B k m, bind m k.

(** *** The operation locator *)

(** [op.target === target] *)
Definition match_target (target : string) (op : Operation) : Prop :=
  Types.target op = target.

(** [op.target === target && op.verb.toLowerCase() === verb.toLowerCase()] *)
Definition match_target_verb (target verb : string) (op : Operation) : Prop :=
  Types.target op = target ∧ toLowerCase (Types.verb op) = toLowerCase verb.

Global Instance match_target_dec target op : Decision (match_target target op).
Proof. unfold match_target. apply _. Defined.

Global Instance match_target_verb_dec target verb op :
  Decision (match_target_verb target verb op).
Proof. unfold match_target_verb. apply _. Defined.

(** The two [find] calls of [updateApiOperations]; the index of the
    operation found is kept, since the handler goes on to edit it. *)
Definition operationInAction (isChoreoConnectEnabled : bool)
    (newApiOperations : list Operation) (target verb : string)
    : option (nat * Operation) :=
  if isChoreoConnectEnabled
  then list_find (match_target target) newApiOperations
  else list_find (match_target_verb target verb) newApiOperations.

(** [p.policyId === updatedOperation.policyId && p.uuid === updatedOperation.uuid] *)
Definition same_policy (updatedOperation p : ApiPolicy) : Prop :=
  policyId p = policyId updatedOperation ∧ uuid p = uuid updatedOperation.

Global Instance same_policy_dec u p : Decision (same_policy u p).
Proof. unfold same_policy. apply _. Defined.

(** *** updateApiOperations *)
Definition updateApiOperations (isChoreoConnectEnabled : bool)
    (apiOperations : list Operation) (updatedOperation : ApiPolicy)
    (target verb currentFlow : string) : Handler (list Operation) :=
  let newApiOperations := apiOperations in
  '(i, op) ← defined (operationInAction isChoreoConnectEnabled
                          newApiOperations target verb);
  pols ← defined (operationPolicies op);
  arr ← defined (pols !! currentFlow);
  match list_find (same_policy updatedOperation) arr with
  | Some (j, operationFlowPolicy) =>
      (* Edit operation policy *)
      let edited :=
        set_parameters operationFlowPolicy (parameters updatedOperation) in
      ret (<[i := set_flow op pols currentFlow (<[j := edited]> arr)]>
             newApiOperations)
  | None =>
      (* Add new operation policy *)
      uuid ← uuidv4;
      ret (<[i := set_flow op pols currentFlow
                    (arr ++ [set_uuid updatedOperation uuid])]>
             newApiOperations)
  end.

(** *** updateAllApiOperations *)

(** One round of the [forEach]: draw the identifier, then push. *)
Definition push_policy (updatedOperation : ApiPolicy) (currentFlow : string)
    (operation : Operation) : Handler Operation :=
  uuid ← uuidv4;
  pols ← defined (operationPolicies operation);
  arr ← defined (pols !! currentFlow);
  ret (set_flow operation pols currentFlow
         (arr ++ [set_uuid updatedOperation uuid])).

Fixpoint forEach_push (updatedOperation : ApiPolicy) (currentFlow : string)
    (ops : list Operation) : Handler (list Operation) :=
  match ops with
  | [] => ret []
  | operation :: rest =>
      operation' ← push_policy updatedOperation currentFlow operation;
      rest' ← forEach_push updatedOperation currentFlow rest;
      ret (operation' :: rest')
  end.

Definition updateAllApiOperations (apiOperations : list Operation)
    (updatedOperation : ApiPolicy) (currentFlow : string)
    : Handler (list Operation) :=
  forEach_push updatedOperation currentFlow apiOperations.

(** The invariant of the live tree: every attachment carries an
    identifier, and it is one of the first [n] the generator handed out. *)
Definition ids_generated (n : nat) (ops : list Operation) : Prop :=
  ∀ a, attached ops a → ∃ k, k < n ∧ uuid a = Some (uuid_at k).

(** The operation carries a list under [flow]. *)
Definition has_flow (flow : string) (op : Operation) : Prop :=
  ∃ pols arr, operationPolicies op = Some pols ∧ pols !! flow = Some arr.

(** *** deleteApiOperation *)
Definition deleteApiOperation (apiOperations : list Operation)
    (uuid target verb currentFlow : string) : option (list Operation) :=
  let newApiOperations := apiOperations in
  '(i, op) ← list_find (match_target_verb target verb) newApiOperations;
  pols ← operationPolicies op;
  arr ← pols !! currentFlow;
  let index := Js.indexOf (Types.uuid <$> arr) (Some uuid) in
  Some (<[i := set_flow op pols currentFlow (Js.splice arr index 1)]>
          newApiOperations).

(** *** rearrangeApiOperations *)
Definition rearrangeApiOperations (apiOperations : list Operation)
    (oldIndex newIndex : nat) (target verb currentFlow : string)
    : option (list Operation) :=
  let newApiOperations := apiOperations in
  '(i, op) ← list_find (match_target_verb target verb) newApiOperations;
  pols ← operationPolicies op;
  policyArray ← pols !! currentFlow;
  Some (<[i := set_flow op pols currentFlow
                 (arrayMove policyArray oldIndex newIndex)]>
          newApiOperations).

(** *** saveApi *)

(** While the [forEach] of one flow runs, [policyArray] is the array it
    walks; [operationPolicies[flow]] refers to that same array until the
    loop body binds the property to a fresh one ([rebound]). *)
Record FlowSlot : Type := {
  policyArray : list ApiPolicy;
  rebound : option (list ApiPolicy);
}.

(** What the loop body does to one item when the gateway is unchanged. *)
Definition strip_uuid (policyItem : ApiPolicy) : ApiPolicy :=
  if Js.truthy (uuid policyItem) then delete_uuid policyItem else policyItem.

(** The body of the [forEach], at position [k] of [policyArray]. *)
Definition strip_step (isGatewayChanged : bool) (st : FlowSlot) (k : nat)
    : FlowSlot :=
  match policyArray st !! k with
  | None => st
  | Some policyItem =>
      if isGatewayChanged then
        {| policyArray := policyArray st; rebound := Some [] |}
      else if Js.truthy (uuid policyItem) then
        {| policyArray := <[k := delete_uuid policyItem]> (policyArray st);
           rebound := rebound st |}
      else st
  end.

Definition forEach_strip (isGatewayChanged : bool) (arr : list ApiPolicy)
    : FlowSlot :=
  foldl (strip_step isGatewayChanged)
    {| policyArray := arr; rebound := None |} (seq 0 (length arr)).

(** What [operationPolicies[flow]] holds once the loop is over. *)
Definition flow_value (st : FlowSlot) : list ApiPolicy :=
  match rebound st with
  | Some fresh => fresh
  | None => policyArray st
  end.

Definition reconcile_flow (isGatewayChanged : bool) (arr : list ApiPolicy)
    : list ApiPolicy :=
  flow_value (forEach_strip isGatewayChanged arr).

(** [if (operation.operationPolicies) { for (const flow in ...) ... }] *)
Definition reconcile_operation (isGatewayChanged : bool)
    (operation : Operation) : Operation :=
  match operationPolicies operation with
  | None => operation
  | Some pols =>
      {| target := target operation; verb := verb operation;
         operationPolicies :=
           Some (reconcile_flow isGatewayChanged <$> pols);
         opOthers := opOthers operation |}
  end.

(** The payload [saveApi] hands to [updateAPI]. *)
Definition saveApi (isChoreoConnectEnabled : bool)
    (apiOperations : list Operation) (isGatewayChanged : bool) : Payload :=
  let newApiOperations := apiOperations in
  {| operations := reconcile_operation isGatewayChanged <$> newApiOperations;
     gatewayVendor :=
       if isChoreoConnectEnabled then "WSO2_CHOREO_CONNECT" else "wso2" |}.

(** *** fetchPolicies *)

(** [[...mergedList.reduce((map, obj) => map.set(obj.displayName, obj),
    new Map()).values()]] *)
Definition unionByPolicyDisplayName (mergedList : list Policy)
    : list Policy :=
  Js.map_values
    (foldl (λ map obj, Js.map_set map (displayName obj) obj) [] mergedList).

(** [(a, b) => a.displayName.localeCompare(b.displayName)] *)
Definition compareDisplayName (a b : Policy) : Z :=
  localeCompare (displayName a) (displayName b).

(** [policy.supportedGateways.includes('Synapse')] *)
Definition supportsSynapse (policy : Policy) : Prop :=
  "Synapse" ∈ supportedGateways policy.

Global Instance supportsSynapse_dec policy : Decision (supportsSynapse policy).
Proof. unfold supportsSynapse. apply _. Defined.

(** The [then] callback of [Promise.all]: the two state cells once both
    responses are in. *)
Definition fetchPolicies (apiSpecificPolicies commonPolicies : list Policy)
    : Catalog :=
  let mergedList := commonPolicies ++ apiSpecificPolicies in
  let sorted :=
    Js.sort compareDisplayName (unionByPolicyDisplayName mergedList) in
  let filteredList := filter supportsSynapse sorted in
  {| allPolicies := mergedList; policies := filteredList |}.

(** *** getInitState *)

(** The order in which [for (const flow in operationPolicies)] visits the
    own keys of the object is left uninterpreted; the theorems assume that
    it visits every own key, once. *)
Variable forIn : gmap string (list ApiPolicy) → list string.

Definition forIn_own_keys : Prop :=
  ∀ pols, NoDup (forIn pols) ∧ ∀ flow, flow ∈ forIn pols ↔ is_Some (pols !! flow).

(** [policyArray.forEach((policyItem) => { policyItem.uuid = uuidv4(); })] *)
Fixpoint forEach_seed_item (policyArray : list ApiPolicy)
    : Handler (list ApiPolicy) :=
  match policyArray with
  | [] => ret []
  | policyItem :: rest =>
      uuid ← uuidv4;
      rest' ← forEach_seed_item rest;
      ret (set_uuid policyItem uuid :: rest')
  end.

(** The [for ... in] loop over the keys still to visit; a key that is not
    an own property is skipped. *)
Fixpoint forIn_seed (flows : list string)
    (pols : gmap string (list ApiPolicy))
    : Handler (gmap string (list ApiPolicy)) :=
  match flows with
  | [] => ret pols
  | flow :: rest =>
      match pols !! flow with
      | Some policyArray =>
          policyArray' ← forEach_seed_item policyArray;
          forIn_seed rest (<[flow := policyArray']> pols)
      | None => forIn_seed rest pols
      end
  end.

(** [if (operation.operationPolicies) { ... }] *)
Definition seed_operation (operation : Operation) : Handler Operation :=
  match operationPolicies operation with
  | None => ret operation
  | Some pols =>
      pols' ← forIn_seed (forIn pols) pols;
      ret {| target := target operation; verb := verb operation;
             operationPolicies := Some pols';
             opOthers := opOthers operation |}
  end.

Fixpoint forEach_seed (ops : list Operation) : Handler (list Operation) :=
  match ops with
  | [] => ret []
  | operation :: rest =>
      operation' ← seed_operation operation;
      rest' ← forEach_seed rest;
      ret (operation' :: rest')
  end.

(** [getInitState], on the operations of the API object. *)
Definition getInitState (api_operations : list Operation)
    : Handler (list Operation) :=
  let clonedOperations := api_operations in
  forEach_seed clonedOperations.

(** The number of attachments of a tree, counted as the loops of
    [getInitState] meet them. *)
Definition count_flows (pols : gmap string (list ApiPolicy))
    (flows : list string) : nat :=
  sum_list_with (λ flow, length (default [] (pols !! flow))) flows.

Definition count_operation (op : Operation) : nat :=
  match operationPolicies op with
  | None => 0
  | Some pols => count_flows pols (forIn pols)
  end.

Definition count_attachments (ops : list Operation) : nat :=
  sum_list_with count_operation ops.

(** A list whose items carry the identifiers drawn from [off] on. *)
Definition seeded (off : nat) (arr : list ApiPolicy) : list ApiPolicy :=
  imap (λ j a, set_uuid a (uuid_at (off + j))) arr.

(** [seeds_operation off op op']: [op'] is [op] with the list under every
    flow [f] seeded from the offset [off f]. *)
Definition seeds_operation (off : string → nat) (op op' : Operation) : Prop :=
  target op' = target op ∧ verb op' = verb op ∧ opOthers op' = opOthers op
  ∧ match operationPolicies op with
    | None => operationPolicies op' = None
    | Some pols =>
        ∃ pols', operationPolicies op' = Some pols'
                 ∧ ∀ f, pols' !! f = seeded (off f) <$> pols !! f
    end.

(** An operation with the uuid deleted from every attachment. *)
Definition without_uuids (op : Operation) : Operation :=
  match operationPolicies op with
  | None => op
  | Some pols =>
      {| target := target op; verb := verb op;
         operationPolicies := Some (fmap (M := list) delete_uuid <$> pols);
         opOthers := opOthers op |}
  end.

(** No identifier occurs twice in the tree: not within one list, and not
    in two lists. *)
Definition ids_unique (ops : list Operation) : Prop :=
  (∀ k flow arr, flow_list ops k flow arr → NoDup (uuid <$> arr))
  ∧ (∀ k flow arr k' flow' arr' a a',
       flow_list ops k flow arr → flow_list ops k' flow' arr' →
       (k, flow) ≠ (k', flow') → a ∈ arr → a' ∈ arr' → uuid a ≠ uuid a').

(** The invariant of the live tree, in full. *)
Definition live_tree (n : nat) (ops : list Operation) : Prop :=
  ids_generated n ops ∧ ids_unique ops.

(** *** The editing session

    The state cells the handlers read and write, the number of identifiers
    drawn so far, and the payloads handed to [updateAPI]. A handler reads
    [apiOperations] from the render it was created in; each action below
    is taken against the state the action before it has left. *)
Record Session : Type := {
  st_apiOperations : list Operation;
  st_isChoreoConnectEnabled : bool;
  st_updating : bool;
  st_drawn : nat;
  st_sent : list Payload;
}.

(** What can happen to the component once it is mounted. *)
Inductive Action : Type :=
  | UpdateApiOperations (updatedOperation : ApiPolicy)
      (target verb currentFlow : string)
  | UpdateAllApiOperations (updatedOperation : ApiPolicy)
      (currentFlow : string)
  | DeleteApiOperation (uuid target verb currentFlow : string)
  | RearrangeApiOperations (oldIndex newIndex : nat)
      (target verb currentFlow : string)
  | SaveApi (isGatewayChanged : bool)
  | UpdateSettled
  | GetGatewayType (isCCEnabled : bool)
  | ApiChanged (api_operations : list Operation).

(** [setApiOperations] is reached only when the handler did not throw. *)
Definition set_operations (st : Session) (outcome : option (list Operation))
    (drawn : nat) : Session :=
  {| st_apiOperations := default (st_apiOperations st) outcome;
     st_isChoreoConnectEnabled := st_isChoreoConnectEnabled st;
     st_updating := st_updating st;
     st_drawn := drawn;
     st_sent := st_sent st |}.

Definition dispatch (st : Session) (a : Action) : Session :=
  match a with
  | UpdateApiOperations updatedOperation target verb currentFlow =>
      let r := updateApiOperations (st_isChoreoConnectEnabled st)
                 (st_apiOperations st) updatedOperation target verb
                 currentFlow (st_drawn st) in
      set_operations st r.1 r.2
  | UpdateAllApiOperations updatedOperation currentFlow =>
      let r := updateAllApiOperations (st_apiOperations st) updatedOperation
                 currentFlow (st_drawn st) in
      set_operations st r.1 r.2
  | DeleteApiOperation uuid target verb currentFlow =>
      set_operations st
        (deleteApiOperation (st_apiOperations st) uuid target verb currentFlow)
        (st_drawn st)
  | RearrangeApiOperations oldIndex newIndex target verb currentFlow =>
      set_operations st
        (rearrangeApiOperations (st_apiOperations st) oldIndex newIndex
           target verb currentFlow)
        (st_drawn st)
  | SaveApi isGatewayChanged =>
      {| st_apiOperations := st_apiOperations st;
         st_isChoreoConnectEnabled := st_isChoreoConnectEnabled st;
         st_updating := true;
         st_drawn := st_drawn st;
         st_sent :=
           st_sent st
           ++ [saveApi (st_isChoreoConnectEnabled st) (st_apiOperations st)
                 isGatewayChanged] |}
  | UpdateSettled =>
      {| st_apiOperations := st_apiOperations st;
         st_isChoreoConnectEnabled := st_isChoreoConnectEnabled st;
         st_updating := false;
         st_drawn := st_drawn st;
         st_sent := st_sent st |}
  | GetGatewayType isCCEnabled =>
      {| st_apiOperations := st_apiOperations st;
         st_isChoreoConnectEnabled := isCCEnabled;
         st_updating := st_updating st;
         st_drawn := st_drawn st;
         st_sent := st_sent st |}
  | ApiChanged api_operations =>
      let r := getInitState api_operations (st_drawn st) in
      set_operations st r.1 r.2
  end.

(** The component after its first render and its mount effects:
    [useState(getInitState)], then the effect on [api] that runs
    [getInitState] again, and the effect that reads [api.gatewayType]. *)
Definition mount (api_operations : list Operation) (gatewayType : string)
    (drawn : nat) : Session :=
  let r1 := getInitState api_operations drawn in
  let r2 := getInitState api_operations r1.2 in
  {| st_apiOperations := default (default [] r1.1) r2.1;
     st_isChoreoConnectEnabled :=
       bool_decide (gatewayType = "WSO2_CHOREO_CONNECT");
     st_updating := false;
     st_drawn := r2.2;
     st_sent := [] |}.

(** While [updating] is set the component renders the progress bar alone,
    so no child can call a handler or [saveApi]; the indices of a
    rearrangement come from the list the child renders. *)
Definition enabled (st : Session) (a : Action) : Prop :=
  match a with
  | UpdateSettled | ApiChanged _ => True
  | RearrangeApiOperations oldIndex newIndex target verb currentFlow =>
      st_updating st = false
      ∧ ∀ i op pols arr,
          list_find (match_target_verb target verb) (st_apiOperations st)
          = Some (i, op) →
          operationPolicies op = Some pols → pols !! currentFlow = Some arr →
          oldIndex < length arr ∧ newIndex < length arr
  | _ => st_updating st = false
  end.

Inductive reachable (st0 : Session) : Session → Prop :=
  | reachable_here : reachable st0 st0
  | reachable_dispatch st a :
      reachable st0 st → enabled st a → reachable st0 (dispatch st a).

(** ** Properties *)

(** *** Plumbing *)

Lemma set_flow_only_flow_changed ops i op pols flow arr' :
  ops !! i = Some op → operationPolicies op = Some pols →
  only_flow_changed ops (<[i := set_flow op pols flow arr']> ops) i flow arr'.
Proof.
  intros Hi Hp. split; [by rewrite length_insert|].
  split; [intros k Hk; by rewrite list_lookup_insert_ne|].
  exists op, (set_flow op pols flow arr'), pols, (<[flow := arr']> pols).
  split_and!; try done.
  - apply list_lookup_insert_eq. by eapply lookup_lt_Some.
  - apply lookup_insert_eq.
  - intros f Hf. by rewrite lookup_insert_ne.
Qed.

Lemma operationInAction_lookup isCC ops target verb i op :
  operationInAction isCC ops target verb = Some (i, op) → ops !! i = Some op.
Proof.
  unfold operationInAction.
  destruct isCC; by intros (? & _)%list_find_Some.
Qed.

(** *** The locator *)

(** C5: the locator of [updateApiOperations] matches by target alone when
    Choreo Connect is enabled (the verb argument plays no part), and by
    target together with equality of the lower-cased verbs otherwise; in
    both modes it returns the first operation that matches, and none
    exactly when no operation matches. In regular mode two look-ups
    whose verbs differ up to case never return the same operation. *)
Theorem operationInAction_by_mode (ops : list Operation) (target verb : string) :
  (∀ verb', operationInAction true ops target verb'
            = operationInAction true ops target verb)
  ∧ (∀ i op, operationInAction true ops target verb = Some (i, op) ↔
       ops !! i = Some op ∧ Types.target op = target
       ∧ ∀ j y, ops !! j = Some y → j < i → Types.target y ≠ target)
  ∧ (operationInAction true ops target verb = None ↔
       Forall (λ op, Types.target op ≠ target) ops)
  ∧ (∀ i op, operationInAction false ops target verb = Some (i, op) ↔
       ops !! i = Some op
       ∧ (Types.target op = target
          ∧ toLowerCase (Types.verb op) = toLowerCase verb)
       ∧ ∀ j y, ops !! j = Some y → j < i →
           ¬ (Types.target y = target
              ∧ toLowerCase (Types.verb y) = toLowerCase verb))
  ∧ (operationInAction false ops target verb = None ↔
       Forall (λ op, ¬ (Types.target op = target
                        ∧ toLowerCase (Types.verb op) = toLowerCase verb)) ops)
  ∧ (∀ verb' i op i' op',
       toLowerCase verb ≠ toLowerCase verb' →
       operationInAction false ops target verb = Some (i, op) →
       operationInAction false ops target verb' = Some (i', op') →
       i ≠ i' ∧ op ≠ op').
Proof.
  unfold operationInAction. split_and!.
  - done.
  - intros i op. by rewrite list_find_Some.
  - by rewrite list_find_None.
  - intros i op. by rewrite list_find_Some.
  - by rewrite list_find_None.
  - intros verb' i op i' op' Hne H1 H2.
    apply list_find_Some in H1 as (Hi & [_ Hv] & _).
    apply list_find_Some in H2 as (Hi' & [_ Hv'] & _).
    assert (op ≠ op') as Hop by (intros ->; congruence).
    split; [|done]. intros ->. congruence.
Qed.

(** *** updateApiOperations *)

(** The run of [updateApiOperations] once the operation and the list of
    its flow are found. *)
Lemma updateApiOperations_found isCC ops att target verb flow n i op pols arr :
  operationInAction isCC ops target verb = Some (i, op) →
  operationPolicies op = Some pols →
  pols !! flow = Some arr →
  updateApiOperations isCC ops att target verb flow n =
    match list_find (same_policy att) arr with
    | Some (j, p) =>
        (Some (<[i := set_flow op pols flow
                        (<[j := set_parameters p (parameters att)]> arr)]> ops),
         n)
    | None =>
        (Some (<[i := set_flow op pols flow
                        (arr ++ [set_uuid att (uuid_at n)])]> ops),
         S n)
    end.
Proof.
  intros Hop Hpols Harr.
  unfold updateApiOperations, mbind, Handler_bind, bind.
  rewrite Hop; simpl. rewrite Hpols; simpl. rewrite Harr; simpl.
  by destruct (list_find (same_policy att) arr) as [[j p]|].
Qed.

(** The first match of a [find] is the only index that matches with no
    match before it. *)
Lemma list_find_first {A} (P : A → Prop) `{∀ x, Decision (P x)}
    (l : list A) j x j' x' :
  list_find P l = Some (j, x) →
  l !! j' = Some x' → P x' →
  (∀ k y, l !! k = Some y → k < j' → ¬ P y) →
  j' = j ∧ x' = x.
Proof.
  intros (Hj & HP & Hleast)%list_find_Some Hj' HP' Hleast'.
  assert (j' = j) as ->.
  { destruct (Nat.lt_trichotomy j' j) as [Hlt|[->|Hlt]]; [|done|].
    - by destruct (Hleast _ _ Hj' Hlt).
    - by destruct (Hleast' _ _ Hj Hlt). }
  split; [done|congruence].
Qed.

(** C3: once the operation and the list of the flow are found,
    [updateApiOperations] changes that list only. If an entry has the
    policyId and the uuid of the incoming attachment, the first such entry
    takes the incoming parameters and keeps its policyId, uuid and other
    fields, every other entry stays in its place, the length is the same
    and no identifier is drawn. If no entry has them, one identifier is
    drawn and the incoming attachment, carrying that identifier, is
    appended at the end of the list. *)
Theorem updateApiOperations_edit_or_add isCC ops att target verb flow n
    i op pols arr :
  operationInAction isCC ops target verb = Some (i, op) →
  operationPolicies op = Some pols →
  pols !! flow = Some arr →
  ∃ ops' arr' n',
    updateApiOperations isCC ops att target verb flow n = (Some ops', n')
    ∧ only_flow_changed ops ops' i flow arr'
    ∧ (∀ j p, arr !! j = Some p → same_policy att p →
         (∀ k q, arr !! k = Some q → k < j → ¬ same_policy att q) →
         n' = n ∧ length arr' = length arr
         ∧ (∀ k, k ≠ j → arr' !! k = arr !! k)
         ∧ ∃ p', arr' !! j = Some p'
                 ∧ parameters p' = parameters att
                 ∧ policyId p' = policyId p ∧ uuid p' = uuid p
                 ∧ others p' = others p)
    ∧ (Forall (λ p, ¬ same_policy att p) arr →
         n' = S n
         ∧ ∃ new, arr' = arr ++ [new]
                  ∧ uuid new = Some (uuid_at n)
                  ∧ policyId new = policyId att
                  ∧ parameters new = parameters att
                  ∧ others new = others att).
Proof.
  intros Hop Hpols Harr.
  pose proof (operationInAction_lookup _ _ _ _ _ _ Hop) as Hi.
  rewrite (updateApiOperations_found _ _ _ _ _ _ _ _ _ _ _ Hop Hpols Harr).
  destruct (list_find (same_policy att) arr) as [[j p]|] eqn:Hfind.
  - eexists _, _, _. split; [reflexivity|].
    split; [by apply set_flow_only_flow_changed|]. split.
    + intros j' p' Hj' Hsame Hleast.
      destruct (list_find_first _ _ _ _ _ _ Hfind Hj' Hsame Hleast) as [-> ->].
      split_and!; [done|by rewrite length_insert| |].
      * intros k Hk. by rewrite list_lookup_insert_ne.
      * exists (set_parameters p (parameters att)). split; [|done].
        apply list_lookup_insert_eq. by eapply lookup_lt_Some.
    + intros Hnone. apply list_find_Some in Hfind as (Hj & Hsame & _).
      rewrite Forall_lookup in Hnone. by destruct (Hnone _ _ Hj).
  - eexists _, _, _. split; [reflexivity|].
    split; [by apply set_flow_only_flow_changed|]. split.
    + intros j p Hj Hsame _. apply list_find_None in Hfind.
      rewrite Forall_lookup in Hfind. by destruct (Hfind _ _ Hj).
    + intros _. split; [done|]. by eexists.
Qed.

(** *** updateAllApiOperations *)

Lemma push_policy_ok att flow op pols arr n :
  operationPolicies op = Some pols → pols !! flow = Some arr →
  push_policy att flow op n
  = (Some (set_flow op pols flow (arr ++ [set_uuid att (uuid_at n)])), S n).
Proof.
  intros Hp Ha. unfold push_policy, mbind, Handler_bind, bind; simpl.
  rewrite Hp; simpl. by rewrite Ha.
Qed.

Lemma push_policy_inv att flow op n op' n' :
  push_policy att flow op n = (Some op', n') →
  n' = S n
  ∧ ∃ pols arr, operationPolicies op = Some pols ∧ pols !! flow = Some arr
      ∧ op' = set_flow op pols flow (arr ++ [set_uuid att (uuid_at n)]).
Proof.
  unfold push_policy, mbind, Handler_bind, bind; simpl.
  destruct (operationPolicies op) as [pols|] eqn:Hp; simpl; [|done].
  destruct (pols !! flow) as [arr|] eqn:Ha; simpl; [|done].
  intros [= <- <-]. split; [done|]. by exists pols, arr.
Qed.

(** With the list present in every operation the loop runs to its end and
    draws one identifier per operation. *)
Lemma forEach_push_succeeds att flow ops n :
  Forall (has_flow flow) ops →
  ∃ ops', forEach_push att flow ops n = (Some ops', n + length ops).
Proof.
  intros Hall. revert n.
  induction Hall as [|op ops (pols & arr & Hp & Ha) _ IH]; intros n.
  - exists []. simpl. unfold ret. f_equal. lia.
  - destruct (IH (S n)) as [ops' Hops']. simpl.
    unfold mbind, Handler_bind, bind.
    rewrite (push_policy_ok _ _ _ _ _ _ Hp Ha), Hops'. simpl.
    eexists. unfold ret. f_equal. lia.
Qed.

(** What a completed loop has done, operation by operation. *)
Lemma forEach_push_inv att flow ops n ops' n' :
  forEach_push att flow ops n = (Some ops', n') →
  n' = n + length ops ∧ length ops' = length ops
  ∧ ∀ k op, ops !! k = Some op →
      ∃ pols arr, operationPolicies op = Some pols ∧ pols !! flow = Some arr
        ∧ ops' !! k
          = Some (set_flow op pols flow
                    (arr ++ [set_uuid att (uuid_at (n + k))])).
Proof.
  revert n ops' n'. induction ops as [|op ops IH]; intros n ops' n'; simpl.
  - intros [= <- <-]. split_and!; [lia|done|]. by intros k op.
  - unfold mbind, Handler_bind, bind.
    destruct (push_policy att flow op n) as [[op1|] n1] eqn:Hpush; [|done].
    destruct (forEach_push att flow ops n1) as [[rest|] n2] eqn:Hrest; [|done].
    intros [= <- <-].
    apply push_policy_inv in Hpush as (-> & pols & arr & Hp & Ha & ->).
    apply IH in Hrest as (-> & Hlen & Hk).
    split_and!; [lia|simpl; by rewrite Hlen|].
    intros [|k] op0; simpl.
    + intros [= <-]. exists pols, arr. by rewrite Nat.add_0_r.
    + intros Hop0. destruct (Hk k op0 Hop0) as (pols0 & arr0 & ? & ? & Hres).
      exists pols0, arr0. by rewrite Nat.add_succ_r.
Qed.

(** C9: on a tree whose [K] operations all carry a list under the flow,
    [updateAllApiOperations] returns a tree of [K] operations after
    drawing [K] identifiers; the list under the flow of each operation is
    the old list followed by exactly one new attachment, with the
    policyId, parameters and other fields of the incoming one and the
    identifier drawn for that operation; every other flow is as before;
    and with a generator that never repeats an identifier the [K] new
    identifiers are pairwise distinct. *)
Theorem updateAllApiOperations_fresh_per_operation ops att flow n :
  Inj (=) (=) uuid_at →
  Forall (has_flow flow) ops →
  ∃ ops' ids,
    updateAllApiOperations ops att flow n = (Some ops', n + length ops)
    ∧ length ops' = length ops
    ∧ length ids = length ops
    ∧ NoDup ids
    ∧ (∀ k arr, flow_list ops k flow arr →
         ∃ new u, flow_list ops' k flow (arr ++ [new])
           ∧ ids !! k = Some u ∧ uuid new = Some u
           ∧ policyId new = policyId att
           ∧ parameters new = parameters att
           ∧ others new = others att)
    ∧ (∀ k f arr, f ≠ flow → flow_list ops k f arr → flow_list ops' k f arr).
Proof.
  intros Hinj Hall. unfold updateAllApiOperations.
  destruct (forEach_push_succeeds att flow ops n Hall) as [ops' Hrun].
  destruct (forEach_push_inv _ _ _ _ _ _ Hrun) as (_ & Hlen & Hk).
  exists ops', (uuid_at <$> seq n (length ops)).
  split_and!; [done|done|by rewrite length_fmap, length_seq| | |].
  - apply (NoDup_fmap_2 _). apply NoDup_seq.
  - intros k arr (op & pols & Hop & Hp & Ha).
    destruct (Hk k op Hop) as (pols' & arr' & Hp' & Ha' & Hres).
    assert (pols' = pols) as -> by congruence.
    assert (arr' = arr) as -> by congruence.
    exists (set_uuid att (uuid_at (n + k))), (uuid_at (n + k)).
    split_and!; try done.
    + eexists _, _. split_and!; [exact Hres|done|]. apply lookup_insert_eq.
    + rewrite list_lookup_fmap, lookup_seq_lt; [done|].
      by eapply lookup_lt_Some.
  - intros k f arr Hf (op & pols & Hop & Hp & Ha).
    destruct (Hk k op Hop) as (pols' & arr' & Hp' & Ha' & Hres).
    assert (pols' = pols) as -> by congruence.
    eexists _, _. split_and!; [exact Hres|done|]. by rewrite lookup_insert_ne.
Qed.

(** *** Where the identifiers of the live tree come from *)

(** An attachment of a tree with one list replaced is in the new list or
    was attached before. *)
Lemma attached_set_flow ops i op pols flow arr' a :
  ops !! i = Some op → operationPolicies op = Some pols →
  attached (<[i := set_flow op pols flow arr']> ops) a →
  a ∈ arr' ∨ attached ops a.
Proof.
  intros Hi Hp (k & f & arr0 & (op0 & pols0 & Hk & Hp0 & Hf) & Ha).
  destruct (decide (k = i)) as [->|Hne].
  - rewrite list_lookup_insert_eq in Hk by (by eapply lookup_lt_Some).
    injection Hk as <-. simpl in Hp0. injection Hp0 as <-.
    destruct (decide (f = flow)) as [->|Hf'].
    + rewrite lookup_insert_eq in Hf. injection Hf as <-. by left.
    + rewrite lookup_insert_ne in Hf by done.
      right. exists i, f, arr0. split; [|done]. by exists op, pols.
  - rewrite list_lookup_insert_ne in Hk by done.
    right. exists k, f, arr0. split; [|done]. by exists op0, pols0.
Qed.

Lemma ids_generated_mono n n' ops :
  n ≤ n' → ids_generated n ops → ids_generated n' ops.
Proof.
  intros Hle Hgen a Ha. destruct (Hgen a Ha) as (k & Hk & Hu).
  exists k. split; [lia|done].
Qed.

(** Replacing one list by a list of generated attachments keeps the
    invariant. *)
Lemma ids_generated_set_flow n ops i op pols flow arr' :
  ops !! i = Some op → operationPolicies op = Some pols →
  ids_generated n ops →
  (∀ a, a ∈ arr' → ∃ k, k < n ∧ uuid a = Some (uuid_at k)) →
  ids_generated n (<[i := set_flow op pols flow arr']> ops).
Proof.
  intros Hi Hp Hgen Hnew a Ha.
  destruct (attached_set_flow _ _ _ _ _ _ _ Hi Hp Ha); auto.
Qed.

Lemma updateApiOperations_ids_generated isCC ops att target verb flow
    n ops' n' :
  ids_generated n ops →
  updateApiOperations isCC ops att target verb flow n = (Some ops', n') →
  n ≤ n' ∧ ids_generated n' ops'.
Proof.
  intros Hgen.
  destruct (operationInAction isCC ops target verb) as [[i op]|] eqn:Hop;
    [|by unfold updateApiOperations, mbind, Handler_bind, bind; rewrite Hop].
  pose proof (operationInAction_lookup _ _ _ _ _ _ Hop) as Hi.
  destruct (operationPolicies op) as [pols|] eqn:Hp;
    [|by unfold updateApiOperations, mbind, Handler_bind, bind;
         rewrite Hop; simpl; rewrite Hp].
  destruct (pols !! flow) as [arr|] eqn:Ha;
    [|by unfold updateApiOperations, mbind, Handler_bind, bind;
         rewrite Hop; simpl; rewrite Hp; simpl; rewrite Ha].
  assert (∀ a, a ∈ arr → ∃ k, k < n ∧ uuid a = Some (uuid_at k)) as Harr.
  { intros a Hin. apply Hgen. exists i, flow, arr.
    split; [by exists op, pols|done]. }
  rewrite (updateApiOperations_found _ _ _ _ _ _ _ _ _ _ _ Hop Hp Ha).
  destruct (list_find (same_policy att) arr) as [[j p]|] eqn:Hfind.
  - intros [= <- <-]. split; [done|].
    apply ids_generated_set_flow; [done..|].
    apply list_find_Some in Hfind as (Hj & _ & _).
    intros a (k & Hk)%list_elem_of_lookup.
    apply list_lookup_insert_Some in Hk as [(-> & <- & _)|[_ Hk]].
    + apply (Harr p). by eapply list_elem_of_lookup_2.
    + apply Harr. by eapply list_elem_of_lookup_2.
  - intros [= <- <-]. split; [lia|].
    apply ids_generated_set_flow;
      [done..|apply (ids_generated_mono n); [lia|done]| ].
    intros a [Hin| ->%list_elem_of_singleton]%elem_of_app.
    + destruct (Harr a Hin) as (k & ? & ?). exists k. split; [lia|done].
    + exists n. split; [lia|done].
Qed.

Lemma updateAllApiOperations_ids_generated ops att flow n ops' n' :
  ids_generated n ops →
  updateAllApiOperations ops att flow n = (Some ops', n') →
  n ≤ n' ∧ ids_generated n' ops'.
Proof.
  intros Hgen (-> & Hlen & Hk)%forEach_push_inv. split; [lia|].
  intros a (k & f & arr0 & (op' & pols' & Hop' & Hp' & Hf) & Ha).
  assert (k < length ops) as Hlt.
  { rewrite <- Hlen. by eapply lookup_lt_Some. }
  destruct (lookup_lt_is_Some_2 ops k Hlt) as [op Hop].
  destruct (Hk k op Hop) as (pols & arr & Hp & Harr & Hres).
  rewrite Hres in Hop'. injection Hop' as <-.
  simpl in Hp'. injection Hp' as <-.
  assert (∀ f' arr' b, pols !! f' = Some arr' → b ∈ arr' →
            ∃ k0, k0 < n + length ops ∧ uuid b = Some (uuid_at k0)) as Hold.
  { intros f' arr' b Hf' Hb.
    destruct (Hgen b) as (k0 & ? & ?).
    - exists k, f', arr'. split; [by exists op, pols|done].
    - exists k0. split; [lia|done]. }
  destruct (decide (f = flow)) as [->|Hne].
  - rewrite lookup_insert_eq in Hf. injection Hf as <-.
    apply elem_of_app in Ha as [Ha| ->%list_elem_of_singleton].
    + by apply (Hold flow arr).
    + exists (n + k). split; [lia|done].
  - rewrite lookup_insert_ne in Hf by done. by apply (Hold f arr0).
Qed.

(** C10: an attachment that [updateApiOperations] or
    [updateAllApiOperations] appends carries the identifier just drawn
    from the generator, whatever uuid the incoming attachment has: in the
    add branch of [updateApiOperations] the new last entry has the
    identifier of this draw; the entry [updateAllApiOperations] appends to
    the operation at index [k] has the identifier of its [k]-th draw, and
    the handler gives the same outcome for two incoming attachments that
    differ in their uuid only.
    Both handlers keep the invariant that every attachment of the live
    tree carries an identifier the generator has handed out. *)
Theorem appended_uuid_from_generator :
  (∀ isCC ops att target verb flow n i op pols arr,
     operationInAction isCC ops target verb = Some (i, op) →
     operationPolicies op = Some pols →
     pols !! flow = Some arr →
     Forall (λ p, ¬ same_policy att p) arr →
     ∃ ops' new,
       updateApiOperations isCC ops att target verb flow n = (Some ops', S n)
       ∧ flow_list ops' i flow (arr ++ [new])
       ∧ uuid new = Some (uuid_at n)
       ∧ (uuid att ≠ Some (uuid_at n) → uuid new ≠ uuid att))
  ∧ (∀ ops att flow n ops' n' k arr,
       updateAllApiOperations ops att flow n = (Some ops', n') →
       flow_list ops k flow arr →
       ∃ new, flow_list ops' k flow (arr ++ [new])
              ∧ uuid new = Some (uuid_at (n + k))
              ∧ (uuid att ≠ Some (uuid_at (n + k)) → uuid new ≠ uuid att))
  ∧ (∀ ops att att' flow n,
       policyId att' = policyId att → parameters att' = parameters att →
       others att' = others att →
       updateAllApiOperations ops att' flow n
       = updateAllApiOperations ops att flow n)
  ∧ (∀ isCC ops att target verb flow n ops' n',
       ids_generated n ops →
       updateApiOperations isCC ops att target verb flow n = (Some ops', n') →
       n ≤ n' ∧ ids_generated n' ops')
  ∧ (∀ ops att flow n ops' n',
       ids_generated n ops →
       updateAllApiOperations ops att flow n = (Some ops', n') →
       n ≤ n' ∧ ids_generated n' ops').
Proof.
  split_and!.
  - intros isCC ops att target verb flow n i op pols arr Hop Hp Ha Hnone.
    pose proof (operationInAction_lookup _ _ _ _ _ _ Hop) as Hi.
    rewrite (updateApiOperations_found _ _ _ _ _ _ _ _ _ _ _ Hop Hp Ha).
    apply (list_find_None (same_policy att)) in Hnone. rewrite Hnone.
    eexists _, (set_uuid att (uuid_at n)). split_and!; [done| |done|].
    + exists (set_flow op pols flow (arr ++ [set_uuid att (uuid_at n)])),
        (<[flow := arr ++ [set_uuid att (uuid_at n)]]> pols).
      split_and!; [|done|apply lookup_insert_eq].
      apply list_lookup_insert_eq. by eapply lookup_lt_Some.
    + simpl. congruence.
  - intros ops att flow n ops' n' k arr (_ & _ & Hk)%forEach_push_inv.
    intros (op & pols & Hop & Hp & Ha).
    destruct (Hk k op Hop) as (pols' & arr' & Hp' & Ha' & Hres).
    assert (pols' = pols) as -> by congruence.
    assert (arr' = arr) as -> by congruence.
    exists (set_uuid att (uuid_at (n + k))). split_and!; [|done|].
    + eexists _, _. split_and!; [exact Hres|done|]. apply lookup_insert_eq.
    + simpl. congruence.
  - intros ops att att' flow n Hid Hpar Hoth.
    unfold updateAllApiOperations. revert n.
    assert (∀ u, set_uuid att' u = set_uuid att u) as Hset.
    { intros u. unfold set_uuid. by rewrite Hid, Hpar, Hoth. }
    induction ops as [|op ops IH]; intros n; [done|]. simpl.
    unfold mbind, Handler_bind, bind.
    replace (push_policy att' flow op n) with (push_policy att flow op n).
    + destruct (push_policy att flow op n) as [[op1|] n1]; [|done].
      by rewrite IH.
    + unfold push_policy, mbind, Handler_bind, bind; simpl.
      destruct (operationPolicies op) as [pols|]; simpl; [|done].
      destruct (pols !! flow); simpl; [|done]. by rewrite Hset.
  - apply updateApiOperations_ids_generated.
  - apply updateAllApiOperations_ids_generated.
Qed.

(** *** deleteApiOperation *)

Lemma indexOf_absent {A} `{EqDecision A} (l : list A) (x : A) :
  x ∉ l → Js.indexOf l x = (-1)%Z.
Proof.
  induction l as [|y l IH]; [done|].
  intros [Hne Hl]%not_elem_of_cons. simpl.
  rewrite decide_False by done. by rewrite IH.
Qed.

Lemma splice_last {A} (l : list A) :
  Js.splice l (-1) 1 = take (length l - 1) l.
Proof.
  unfold Js.splice. simpl.
  destruct l as [|x l]; [done|].
  rewrite drop_ge; [|simpl length; lia].
  rewrite app_nil_r. f_equal. simpl length. lia.
Qed.

(** With a uuid that no entry of the list carries, [indexOf] answers
    [-1] and [splice(-1, 1)] removes the last entry. *)
Lemma deleteApiOperation_absent ops uuid target verb flow i op pols arr :
  list_find (match_target_verb target verb) ops = Some (i, op) →
  operationPolicies op = Some pols →
  pols !! flow = Some arr →
  Some uuid ∉ Types.uuid <$> arr →
  deleteApiOperation ops uuid target verb flow
  = Some (<[i := set_flow op pols flow (take (length arr - 1) arr)]> ops).
Proof.
  intros Hop Hp Ha Habs. unfold deleteApiOperation.
  rewrite Hop; simpl. rewrite Hp; simpl. rewrite Ha; simpl.
  by rewrite (indexOf_absent _ _ Habs), splice_last.
Qed.

(** *** rearrangeApiOperations *)

Lemma arrayMove_valid {A} (l : list A) from to x :
  l !! from = Some x → to < length l →
  arrayMove l from to
  = take to (delete from l) ++ x :: drop to (delete from l).
Proof.
  intros Hx Hto. unfold arrayMove. rewrite Hx. by rewrite decide_True.
Qed.

Lemma arrayMove_length {A} (l : list A) from to :
  length (arrayMove l from to) = length l.
Proof.
  unfold arrayMove. destruct (l !! from) as [x|] eqn:Hx; [|done].
  case_decide; [|done].
  pose proof (lookup_lt_Some _ _ _ Hx).
  rewrite length_app, length_take; simpl.
  rewrite length_drop, length_delete by eauto. lia.
Qed.

Lemma arrayMove_lookup {A} (l : list A) from to :
  from < length l → to < length l →
  arrayMove l from to !! to = l !! from.
Proof.
  intros Hfrom Hto.
  destruct (lookup_lt_is_Some_2 l from Hfrom) as [x Hx].
  rewrite (arrayMove_valid _ _ _ _ Hx Hto), Hx.
  apply list_lookup_middle.
  rewrite length_take, length_delete by eauto. lia.
Qed.

Lemma arrayMove_delete {A} (l : list A) from to :
  from < length l → to < length l →
  delete to (arrayMove l from to) = delete from l.
Proof.
  intros Hfrom Hto.
  destruct (lookup_lt_is_Some_2 l from Hfrom) as [x Hx].
  rewrite (arrayMove_valid _ _ _ _ Hx Hto).
  assert (length (take to (delete from l)) = to) as Hlen.
  { rewrite length_take, length_delete by eauto. lia. }
  rewrite <- Hlen at 1. rewrite delete_middle. apply take_drop.
Qed.

(** C8: once the operation and the list of the flow are found and both
    indices are within the list, [rearrangeApiOperations] changes that
    list only; the new list has the same length, holds at [newIndex] the
    element that was at [oldIndex], and without that element it is the
    old list without it, so every other element keeps its relative order
    (a move, not a swap: moving index 0 to index 2 in [[a; b; c; d]]
    gives [[b; c; a; d]]). *)
Theorem rearrangeApiOperations_moves ops oldIndex newIndex target verb flow
    i op pols arr :
  list_find (match_target_verb target verb) ops = Some (i, op) →
  operationPolicies op = Some pols →
  pols !! flow = Some arr →
  oldIndex < length arr → newIndex < length arr →
  ∃ ops' arr',
    rearrangeApiOperations ops oldIndex newIndex target verb flow = Some ops'
    ∧ only_flow_changed ops ops' i flow arr'
    ∧ length arr' = length arr
    ∧ arr' !! newIndex = arr !! oldIndex
    ∧ delete newIndex arr' = delete oldIndex arr
    ∧ ∀ a b c d : ApiPolicy, arrayMove [a; b; c; d] 0 2 = [b; c; a; d].
Proof.
  intros Hop Hp Ha Hold Hnew.
  assert (ops !! i = Some op) as Hi.
  { by apply list_find_Some in Hop as (? & _). }
  exists (<[i := set_flow op pols flow (arrayMove arr oldIndex newIndex)]> ops),
    (arrayMove arr oldIndex newIndex).
  split_and!.
  - unfold rearrangeApiOperations.
    rewrite Hop; simpl. rewrite Hp; simpl. by rewrite Ha.
  - by apply set_flow_only_flow_changed.
  - apply arrayMove_length.
  - by apply arrayMove_lookup.
  - by apply arrayMove_delete.
  - done.
Qed.

(** *** saveApi *)

(** With the gateway changed the loop never touches the array it walks. *)
Lemma strip_changed_policyArray st ks :
  policyArray (foldl (strip_step true) st ks) = policyArray st.
Proof.
  revert st. induction ks as [|k ks IH]; intros st; [done|]. simpl.
  rewrite IH. unfold strip_step. by destruct (policyArray st !! k).
Qed.

(** One round within the array is enough to rebind the property. *)
Lemma strip_changed_rebound st ks :
  rebound (foldl (strip_step true) st ks) = Some []
  ∨ rebound (foldl (strip_step true) st ks) = rebound st
    ∧ Forall (λ k, length (policyArray st) ≤ k) ks.
Proof.
  revert st. induction ks as [|k ks IH]; intros st; [by right|]. simpl.
  destruct (IH (strip_step true st k)) as [?|[Hr Hks]]; [by left|].
  unfold strip_step in Hr, Hks |- *.
  destruct (policyArray st !! k) as [item|] eqn:Hk; simpl in *.
  - left. by rewrite Hr.
  - right. split; [done|]. constructor; [|done]. by apply lookup_ge_None.
Qed.

Lemma reconcile_flow_changed arr : reconcile_flow true arr = [].
Proof.
  unfold reconcile_flow, forEach_strip, flow_value.
  set (st := {| policyArray := arr; rebound := None |}).
  destruct (strip_changed_rebound st (seq 0 (length arr))) as [->|[-> Hks]];
    [done|].
  rewrite strip_changed_policyArray. simpl in *.
  destruct arr as [|a arr]; [done|].
  simpl in Hks. apply Forall_cons in Hks as [Hk _]. lia.
Qed.

(** With the gateway unchanged the property is never rebound, and the
    rounds [k .. k + m - 1] strip the items at these positions. *)
Lemma strip_unchanged_rebound st ks :
  rebound (foldl (strip_step false) st ks) = rebound st.
Proof.
  revert st. induction ks as [|k ks IH]; intros st; [done|]. simpl.
  rewrite IH. unfold strip_step.
  destruct (policyArray st !! k); [|done]. by case_match.
Qed.

Lemma strip_step_lookup st k j :
  policyArray (strip_step false st k) !! j
  = if decide (j = k) then strip_uuid <$> policyArray st !! j
    else policyArray st !! j.
Proof.
  unfold strip_step, strip_uuid.
  destruct (policyArray st !! k) as [item|] eqn:Hk.
  - destruct (Js.truthy (uuid item)) eqn:Ht; simpl.
    + case_decide as Hj; [subst j|by rewrite list_lookup_insert_ne].
      rewrite list_lookup_insert_eq by (by eapply lookup_lt_Some).
      by rewrite Hk; simpl; rewrite Ht.
    + case_decide as Hj; [subst j|done]. by rewrite Hk; simpl; rewrite Ht.
  - case_decide as Hj; [subst j|done]. by rewrite Hk.
Qed.

Lemma strip_unchanged_lookup st k m j :
  policyArray (foldl (strip_step false) st (seq k m)) !! j
  = if decide (k ≤ j < k + m) then strip_uuid <$> policyArray st !! j
    else policyArray st !! j.
Proof.
  revert st k. induction m as [|m IH]; intros st k; simpl.
  - rewrite decide_False by lia. done.
  - rewrite IH, strip_step_lookup.
    repeat case_decide; try done; lia.
Qed.

Lemma reconcile_flow_unchanged arr :
  reconcile_flow false arr = strip_uuid <$> arr.
Proof.
  unfold reconcile_flow, forEach_strip, flow_value.
  rewrite strip_unchanged_rebound; simpl.
  apply list_eq; intros j.
  rewrite strip_unchanged_lookup, list_lookup_fmap; simpl.
  case_decide as Hj; [done|].
  rewrite (lookup_ge_None_2 arr j) by lia. done.
Qed.

(** The lists of the payload are the lists of the tree, reconciled. *)
Lemma saveApi_flow_list isCC ops changed k flow arr' :
  flow_list (operations (saveApi isCC ops changed)) k flow arr' ↔
  ∃ arr, flow_list ops k flow arr ∧ arr' = reconcile_flow changed arr.
Proof.
  unfold flow_list; simpl. rewrite list_lookup_fmap. split.
  - intros (op' & pols' & Hop' & Hp' & Hf).
    destruct (ops !! k) as [op|] eqn:Hop; [|done].
    simpl in Hop'. injection Hop' as <-. unfold reconcile_operation in *.
    destruct (operationPolicies op) as [pols|] eqn:Hp.
    + simpl in Hp'. injection Hp' as <-.
      rewrite lookup_fmap in Hf.
      destruct (pols !! flow) as [arr|] eqn:Ha; [|done].
      simpl in Hf. injection Hf as <-. exists arr. split; [|done].
      by exists op, pols.
    + congruence.
  - intros (arr & (op & pols & Hop & Hp & Ha) & ->).
    exists (reconcile_operation changed op),
      (reconcile_flow changed <$> pols).
    rewrite Hop. simpl. unfold reconcile_operation. rewrite Hp.
    split_and!; [done..|]. by rewrite lookup_fmap, Ha.
Qed.

(** C2: with [isGatewayChanged = true] the payload handed to [updateAPI]
    has the operations of the tree, each with the flows it had, and the
    list of every flow is empty, whatever it held. *)
Theorem saveApi_gateway_changed_empties_flows isCC ops :
  length (operations (saveApi isCC ops true)) = length ops
  ∧ (∀ k flow arr, flow_list ops k flow arr →
       flow_list (operations (saveApi isCC ops true)) k flow [])
  ∧ (∀ k flow arr,
       flow_list (operations (saveApi isCC ops true)) k flow arr → arr = []).
Proof.
  split_and!.
  - simpl. by rewrite length_fmap.
  - intros k flow arr Harr. apply saveApi_flow_list.
    exists arr. by rewrite reconcile_flow_changed.
  - intros k flow arr (arr0 & _ & ->)%saveApi_flow_list.
    apply reconcile_flow_changed.
Qed.

Lemma strip_uuid_truthy a :
  uuid a ≠ Some "" → strip_uuid a = delete_uuid a.
Proof.
  unfold strip_uuid, Js.truthy, delete_uuid.
  destruct a as [pid ps [u|] oth]; simpl; [|done].
  destruct (String.eqb_spec u "") as [->|]; simpl; [by intros []|done].
Qed.

(** The guard [else if (policyItem.uuid)] lets every uuid but the empty
    string through to [delete]: on a tree in which no attachment carries
    the empty string as its uuid, every list of the payload is the list of
    the tree with the uuid deleted from each attachment. *)
Lemma saveApi_strips_truthy_uuid isCC ops :
  (∀ a, attached ops a → uuid a ≠ Some "") →
  (∀ k flow arr, flow_list ops k flow arr →
     flow_list (operations (saveApi isCC ops false)) k flow
       (delete_uuid <$> arr))
  ∧ (∀ a, attached (operations (saveApi isCC ops false)) a → uuid a = None).
Proof.
  intros Hne.
  assert (∀ k flow arr, flow_list ops k flow arr →
            reconcile_flow false arr = delete_uuid <$> arr) as Hstrip.
  { intros k flow arr Harr. rewrite reconcile_flow_unchanged.
    apply list_fmap_ext. intros j a Hj. apply strip_uuid_truthy, Hne.
    exists k, flow, arr. split; [done|]. by eapply list_elem_of_lookup_2. }
  split.
  - intros k flow arr Harr. apply saveApi_flow_list.
    exists arr. split; [done|]. symmetry. by eapply Hstrip.
  - intros a (k & flow & arr' & (arr & Harr & ->)%saveApi_flow_list & Ha).
    rewrite (Hstrip _ _ _ Harr) in Ha.
    apply list_elem_of_fmap in Ha as (b & -> & _). done.
Qed.

(** C4: with [isGatewayChanged = false], on a tree whose attachments all
    carry identifiers the generator has handed out, as every tree the
    handlers build does, and with a generator whose identifiers are not
    the empty string, every list of the payload is the list of the tree
    with the uuid deleted from each attachment: no attachment of the
    payload has a uuid. *)
Theorem saveApi_strips_uuid isCC n ops :
  (∀ k, uuid_at k ≠ "") →
  ids_generated n ops →
  (∀ k flow arr, flow_list ops k flow arr →
     flow_list (operations (saveApi isCC ops false)) k flow
       (delete_uuid <$> arr))
  ∧ (∀ a, attached (operations (saveApi isCC ops false)) a → uuid a = None).
Proof.
  intros Hne Hgen. apply saveApi_strips_truthy_uuid.
  intros a Ha. destruct (Hgen a Ha) as (k & _ & ->).
  intros [= Hu]. by apply (Hne k).
Qed.

(** *** fetchPolicies *)

(** The entries of a [Map] after [set], when no key occurs twice. *)
Lemma map_set_fst {V} (m : list (string * V)) k v :
  (Js.map_set m k v).*1 = if decide (k ∈ m.*1) then m.*1 else m.*1 ++ [k].
Proof.
  induction m as [|[k0 v0] m IH]; csimpl; [done|].
  destruct (decide (k0 = k)) as [->|Hne]; csimpl.
  - rewrite decide_True by left. done.
  - rewrite IH. destruct (decide (k ∈ m.*1)) as [Hin|Hnin].
    + rewrite decide_True by (by right). done.
    + rewrite decide_False; [done|].
      intros [?|?]%elem_of_cons; congruence.
Qed.

Lemma map_set_NoDup {V} (m : list (string * V)) k v :
  NoDup m.*1 → NoDup (Js.map_set m k v).*1.
Proof.
  intros Hm. rewrite map_set_fst. case_decide as Hk; [done|].
  apply NoDup_app. split_and!; [done| |apply NoDup_singleton].
  intros x Hx ->%list_elem_of_singleton. done.
Qed.

Lemma map_set_elem_of {V} (m : list (string * V)) k v k' v' :
  NoDup m.*1 →
  (k', v') ∈ Js.map_set m k v ↔
  (k' = k ∧ v' = v) ∨ (k' ≠ k ∧ (k', v') ∈ m).
Proof.
  induction m as [|[k0 v0] m IH]; simpl.
  - intros _. rewrite list_elem_of_singleton. split.
    + intros [= -> ->]. by left.
    + intros [[-> ->]|[_ []%elem_of_nil]]. done.
  - intros [Hk0 Hm]%NoDup_cons.
    destruct (decide (k0 = k)) as [->|Hne].
    + rewrite !elem_of_cons. split.
      * intros [[= -> ->]|Hin]; [by left|]. right. split; [|by right].
        intros ->. apply Hk0. apply list_elem_of_fmap. by exists (k, v').
      * intros [[-> ->]|[Hne [[= ? ?]|Hin]]]; [by left|done|by right].
    + rewrite !elem_of_cons, (IH Hm). split.
      * intros [[= -> ->]|[?|[? ?]]]; [|by left|].
        -- right. split; [done|by left].
        -- right. split; [done|by right].
      * intros [[-> ->]|[? [[= -> ->]|?]]];
          [right; by left|by left|right; right; done].
Qed.

(** The [Map] the [reduce] builds: no key twice, and under each display
    name the last entry of the list that has it. *)
Lemma reduce_displayName_entries (l : list Policy) :
  let map := foldl (λ map obj, Js.map_set map (displayName obj) obj) [] l in
  NoDup map.*1
  ∧ ∀ k v, (k, v) ∈ map ↔ last (filter (λ q, displayName q = k) l) = Some v.
Proof.
  induction l as [|x l [Hnd IH]] using rev_ind; simpl.
  - split; [constructor|]. intros k v. split; [by intros ?%elem_of_nil|done].
  - rewrite foldl_snoc. split; [by apply map_set_NoDup|].
    intros k v. rewrite (map_set_elem_of _ _ _ _ _ Hnd), IH, filter_app.
    destruct (decide (displayName x = k)) as [Hk|Hk].
    + rewrite (filter_cons_True _ x []) by done. rewrite filter_nil, last_snoc.
      split; [intros [[_ ->]|[? _]]; congruence|].
      intros [= ->]. by left.
    + rewrite (filter_cons_False _ x []) by done.
      rewrite filter_nil, app_nil_r.
      split; [intros [[-> _]|[_ ?]]; congruence|].
      intros ?. right. split; [congruence|done].
Qed.

Lemma last_filter_displayName (l : list Policy) k v :
  last (filter (λ q, displayName q = k) l) = Some v →
  displayName v = k ∧ v ∈ l.
Proof.
  intros Hv%last_Some_elem_of. by apply list_elem_of_filter in Hv.
Qed.

(** An entry is in the union exactly when it is the last one of the
    merged list under its display name. *)
Lemma elem_of_unionByPolicyDisplayName l p :
  p ∈ unionByPolicyDisplayName l ↔
  last (filter (λ q, displayName q = displayName p) l) = Some p.
Proof.
  destruct (reduce_displayName_entries l) as [_ Hent].
  unfold unionByPolicyDisplayName, Js.map_values.
  rewrite list_elem_of_fmap. split.
  - intros ([k v] & -> & Hkv). simpl. apply Hent in Hkv.
    by destruct (last_filter_displayName _ _ _ Hkv) as [-> _].
  - intros Hp. exists (displayName p, p). split; [done|]. by apply Hent.
Qed.

Lemma unionByPolicyDisplayName_NoDup l :
  NoDup (displayName <$> unionByPolicyDisplayName l).
Proof.
  destruct (reduce_displayName_entries l) as [Hnd Hent].
  unfold unionByPolicyDisplayName, Js.map_values.
  set (map := foldl _ _ _) in *.
  replace (displayName <$> map.*2) with map.*1; [done|].
  rewrite <- list_fmap_compose. apply list_fmap_ext.
  intros i [k v] Hi; simpl.
  apply list_elem_of_lookup_2, Hent in Hi.
  by destruct (last_filter_displayName _ _ _ Hi) as [-> _].
Qed.

(** The sort rearranges its input, and its output is ordered as soon as
    the comparator relates any two elements one way or the other. *)
Lemma sort_insert_Permutation {A} (cmp : A → A → Z) x l :
  Js.sort_insert cmp x l ≡ₚ x :: l.
Proof.
  induction l as [|y l IH]; simpl; [done|].
  case_match; [done|]. rewrite IH. apply Permutation_swap.
Qed.

Lemma sort_Permutation {A} (cmp : A → A → Z) l : Js.sort cmp l ≡ₚ l.
Proof.
  unfold Js.sort. induction l as [|x l IH]; simpl; [done|].
  by rewrite sort_insert_Permutation, IH.
Qed.

Lemma sort_insert_Sorted {A} (cmp : A → A → Z) x l :
  (∀ a b, (cmp a b ≤ 0 ∨ cmp b a ≤ 0)%Z) →
  Sorted (λ a b, (cmp a b ≤ 0)%Z) l →
  Sorted (λ a b, (cmp a b ≤ 0)%Z) (Js.sort_insert cmp x l).
Proof.
  intros Htotal Hl. induction Hl as [|y l Hl IH Hhd]; simpl.
  - by repeat constructor.
  - destruct (Z.leb_spec (cmp x y) 0) as [Hle|Hgt].
    + constructor; [by constructor|by constructor].
    + constructor; [done|].
      assert (cmp y x ≤ 0)%Z as Hyx by (destruct (Htotal x y); lia).
      destruct Hhd as [|z l Hyz]; simpl; [by constructor|].
      case_match; by constructor.
Qed.

Lemma sort_Sorted {A} (cmp : A → A → Z) l :
  (∀ a b, (cmp a b ≤ 0 ∨ cmp b a ≤ 0)%Z) →
  Sorted (λ a b, (cmp a b ≤ 0)%Z) (Js.sort cmp l).
Proof.
  intros Htotal. unfold Js.sort.
  induction l as [|x l IH]; simpl; [constructor|].
  by apply sort_insert_Sorted.
Qed.

Lemma StronglySorted_filter {A} (R : relation A) (P : A → Prop)
    `{∀ x, Decision (P x)} l :
  StronglySorted R l → StronglySorted R (filter P l).
Proof.
  induction 1 as [|x l Hl IH Hx]; [constructor|].
  rewrite filter_cons. case_decide; [|done].
  constructor; [done|].
  apply Forall_forall. intros y [_ Hy]%list_elem_of_filter.
  rewrite Forall_forall in Hx. auto.
Qed.

(** C7: the selectable catalog holds exactly the entries that support
    [Synapse] and are the last of [commonPolicies ++ apiSpecificPolicies]
    under their display name; no display name occurs twice; an entry whose
    display name an API specific policy bears is an API specific policy
    (with one common and one API specific policy of the same name the
    union is the API specific one alone); and, for a [localeCompare] that
    is total and transitive, the catalog is ordered by it on the display
    names. *)
Theorem fetchPolicies_selectable_catalog apiSpecificPolicies commonPolicies :
  (∀ a b, (localeCompare a b ≤ 0 ∨ localeCompare b a ≤ 0)%Z) →
  (∀ a b c, (localeCompare a b ≤ 0)%Z → (localeCompare b c ≤ 0)%Z →
            (localeCompare a c ≤ 0)%Z) →
  (∀ p, p ∈ policies (fetchPolicies apiSpecificPolicies commonPolicies) ↔
      supportsSynapse p
      ∧ last (filter (λ q, displayName q = displayName p)
                (commonPolicies ++ apiSpecificPolicies)) = Some p)
  ∧ NoDup (displayName <$>
             policies (fetchPolicies apiSpecificPolicies commonPolicies))
  ∧ (∀ p a, p ∈ policies (fetchPolicies apiSpecificPolicies commonPolicies) →
       a ∈ apiSpecificPolicies → displayName a = displayName p →
       p ∈ apiSpecificPolicies)
  ∧ (∀ c a, displayName c = displayName a →
       unionByPolicyDisplayName ([c] ++ [a]) = [a])
  ∧ StronglySorted
      (λ a b, (localeCompare (displayName a) (displayName b) ≤ 0)%Z)
      (policies (fetchPolicies apiSpecificPolicies commonPolicies)).
Proof.
  intros Htotal Htrans. simpl.
  set (merged := commonPolicies ++ apiSpecificPolicies).
  assert (∀ p, p ∈ filter supportsSynapse
                     (Js.sort compareDisplayName
                        (unionByPolicyDisplayName merged)) ↔
               supportsSynapse p
               ∧ last (filter (λ q, displayName q = displayName p) merged)
                 = Some p) as Hmem.
  { intros p. rewrite list_elem_of_filter, sort_Permutation.
    by rewrite elem_of_unionByPolicyDisplayName. }
  split_and!.
  - exact Hmem.
  - eapply sublist_NoDup;
      [|apply fmap_sublist, sublist_filter].
    rewrite sort_Permutation. apply unionByPolicyDisplayName_NoDup.
  - intros p a [_ Hlast]%Hmem Ha Hname. unfold merged in Hlast.
    rewrite filter_app in Hlast.
    apply last_app_Some in Hlast as [Hlast|[Hnil Hlast]].
    + by apply last_Some_elem_of, list_elem_of_filter in Hlast as [_ ?].
    + apply last_None in Hnil.
      by destruct (filter_nil_not_elem_of _ _ a Hnil).
  - intros c a Hname. unfold unionByPolicyDisplayName. simpl.
    by rewrite decide_True.
  - apply StronglySorted_filter.
    apply Sorted_StronglySorted.
    + intros a b c. unfold compareDisplayName. apply Htrans.
    + apply (sort_Sorted compareDisplayName).
      intros a b. apply Htotal.
Qed.

(** C6, as the code has it: once both responses are in, the list kept
    for look-up by id is the merged list itself, the common policies
    followed by the API specific ones with every entry kept (display
    names that collide included); the second list is the union by display
    name, sorted and filtered to the entries that support [Synapse]. *)
Theorem fetchPolicies_artifacts apiSpecificPolicies commonPolicies :
  allPolicies (fetchPolicies apiSpecificPolicies commonPolicies)
  = commonPolicies ++ apiSpecificPolicies
  ∧ length (allPolicies (fetchPolicies apiSpecificPolicies commonPolicies))
    = length commonPolicies + length apiSpecificPolicies
  ∧ (∀ p, p ∈ allPolicies (fetchPolicies apiSpecificPolicies commonPolicies)
       ↔ p ∈ commonPolicies ∨ p ∈ apiSpecificPolicies)
  ∧ policies (fetchPolicies apiSpecificPolicies commonPolicies)
    = filter supportsSynapse
        (Js.sort compareDisplayName
           (unionByPolicyDisplayName
              (commonPolicies ++ apiSpecificPolicies))).
Proof.
  simpl. split_and!; [done|apply length_app| |done].
  intros p. apply elem_of_app.
Qed.

(** ** Further properties *)

(** *** getInitState *)

Lemma forEach_seed_item_run arr n :
  forEach_seed_item arr n = (Some (seeded n arr), n + length arr).
Proof.
  revert n. induction arr as [|a arr IH]; intros n; simpl.
  - unfold ret. f_equal. lia.
  - unfold mbind, Handler_bind, bind, uuidv4. rewrite IH. simpl.
    unfold ret, seeded. rewrite imap_cons, Nat.add_0_r. do 2 f_equal; [|lia].
    f_equal. apply imap_ext. intros j b _. simpl. do 2 f_equal. lia.
Qed.

Lemma length_seeded off arr : length (seeded off arr) = length arr.
Proof. apply length_imap. Qed.

Lemma lookup_seeded off arr j :
  seeded off arr !! j = (λ a, set_uuid a (uuid_at (off + j))) <$> arr !! j.
Proof. apply list_lookup_imap. Qed.

Lemma elem_of_seeded off arr a' :
  a' ∈ seeded off arr ↔
  ∃ j a, arr !! j = Some a ∧ a' = set_uuid a (uuid_at (off + j)).
Proof.
  rewrite list_elem_of_lookup. split.
  - intros [j Hj]. rewrite lookup_seeded in Hj.
    destruct (arr !! j) as [a|] eqn:Ha; [|done].
    injection Hj as <-. by exists j, a.
  - intros (j & a & Ha & ->). exists j. by rewrite lookup_seeded, Ha.
Qed.

Lemma count_flows_ext pols1 pols2 flows :
  (∀ f, f ∈ flows → pols1 !! f = pols2 !! f) →
  count_flows pols1 flows = count_flows pols2 flows.
Proof.
  unfold count_flows. induction flows as [|f flows IH]; intros Hext; [done|].
  simpl. rewrite Hext by left. rewrite IH; [done|].
  intros g Hg. apply Hext. by right.
Qed.

(** The [for ... in] loop over keys that are pairwise different: every
    list under a visited key is seeded from an offset of its own, the
    ranges of identifiers of two lists do not meet, and one identifier is
    drawn per item. *)
Lemma forIn_seed_run flows pols n :
  NoDup flows →
  ∃ pols' (off : string → nat),
    forIn_seed flows pols n = (Some pols', n + count_flows pols flows)
    ∧ (∀ f, f ∉ flows → pols' !! f = pols !! f)
    ∧ (∀ f, f ∈ flows → pols' !! f = seeded (off f) <$> pols !! f)
    ∧ (∀ f arr, f ∈ flows → pols !! f = Some arr →
         n ≤ off f ∧ off f + length arr ≤ n + count_flows pols flows)
    ∧ (∀ f g arr brr, f ∈ flows → g ∈ flows → f ≠ g →
         pols !! f = Some arr → pols !! g = Some brr →
         off f + length arr ≤ off g ∨ off g + length brr ≤ off f).
Proof.
  intros Hnd. revert pols n.
  induction Hnd as [|f0 flows Hf0 Hnd IH]; intros pols n.
  - exists pols, (λ _, 0). unfold count_flows; simpl.
    split_and!; [unfold ret; f_equal; lia|done|..].
    + by intros ? ?%elem_of_nil.
    + by intros ? ? ?%elem_of_nil.
    + by intros ? ? ? ? ?%elem_of_nil.
  - destruct (pols !! f0) as [arr0|] eqn:Hpf0.
    + assert (count_flows pols (f0 :: flows)
              = length arr0 + count_flows pols flows) as ->.
      { unfold count_flows. simpl. by rewrite Hpf0. }
      cbn [forIn_seed]. rewrite Hpf0.
      unfold mbind, Handler_bind, bind.
      rewrite forEach_seed_item_run.
      set (pols1 := <[f0 := seeded n arr0]> pols).
      assert (∀ f, f ≠ f0 → pols1 !! f = pols !! f) as Hother.
      { intros f Hf. unfold pols1. by rewrite lookup_insert_ne. }
      assert (∀ f, f ∈ flows → pols1 !! f = pols !! f) as Hin.
      { intros f Hf. apply Hother. by intros ->. }
      destruct (IH pols1 (n + length arr0))
        as (pols' & off1 & Hrun & Hout & Hseed & Hbound & Hdisj).
      rewrite (count_flows_ext pols1 pols flows Hin) in Hrun, Hbound.
      exists pols', (λ f, if decide (f = f0) then n else off1 f).
      split_and!.
      * rewrite Hrun. f_equal. lia.
      * intros f [Hne Hf]%not_elem_of_cons. rewrite Hout by done. by apply Hother.
      * intros f [->|Hf]%elem_of_cons.
        -- rewrite decide_True by done. rewrite Hout by done.
           unfold pols1. by rewrite lookup_insert_eq, Hpf0.
        -- rewrite decide_False by (by intros ->).
           by rewrite Hseed, Hin.
      * intros f arr [->|Hf]%elem_of_cons Harr.
        -- rewrite decide_True by done.
           assert (arr = arr0) as -> by congruence. lia.
        -- rewrite decide_False by (by intros ->).
           rewrite <- Hin in Harr by done.
           destruct (Hbound f arr Hf Harr). lia.
      * intros f g arr brr [->|Hf]%elem_of_cons [->|Hg]%elem_of_cons Hfg Harr Hbrr.
        -- done.
        -- rewrite decide_True by done.
           rewrite decide_False by (by intros ->).
           assert (arr = arr0) as -> by congruence.
           rewrite <- Hin in Hbrr by done.
           destruct (Hbound g brr Hg Hbrr). left. lia.
        -- rewrite decide_False by (by intros ->).
           rewrite decide_True by done.
           assert (brr = arr0) as -> by congruence.
           rewrite <- Hin in Harr by done.
           destruct (Hbound f arr Hf Harr). right. lia.
        -- rewrite !decide_False by (by intros ->).
           rewrite <- Hin in Harr, Hbrr by done.
           by apply (Hdisj f g arr brr).
    + assert (count_flows pols (f0 :: flows) = count_flows pols flows) as ->.
      { unfold count_flows. simpl. by rewrite Hpf0. }
      cbn [forIn_seed]. rewrite Hpf0.
      destruct (IH pols n) as (pols' & off1 & Hrun & Hout & Hseed & Hbound & Hdisj).
      exists pols', off1.
      split_and!.
      * done.
      * intros f [Hne Hf]%not_elem_of_cons. by apply Hout.
      * intros f [->|Hf]%elem_of_cons; [|by apply Hseed].
        by rewrite Hout, Hpf0.
      * intros f arr [->|Hf]%elem_of_cons Harr; [congruence|by apply Hbound].
      * intros f g arr brr [->|Hf]%elem_of_cons [->|Hg]%elem_of_cons Hfg Harr Hbrr;
          try congruence.
        by apply (Hdisj f g arr brr).
Qed.

Lemma seed_operation_run op n :
  forIn_own_keys →
  ∃ op' (off : string → nat),
    seed_operation op n = (Some op', n + count_operation op)
    ∧ seeds_operation off op op'
    ∧ (∀ pols f arr, operationPolicies op = Some pols → pols !! f = Some arr →
         n ≤ off f ∧ off f + length arr ≤ n + count_operation op)
    ∧ (∀ pols f g arr brr, operationPolicies op = Some pols → f ≠ g →
         pols !! f = Some arr → pols !! g = Some brr →
         off f + length arr ≤ off g ∨ off g + length brr ≤ off f).
Proof.
  intros Hkeys. unfold seed_operation, count_operation, seeds_operation.
  destruct (operationPolicies op) as [pols|] eqn:Hp.
  - destruct (Hkeys pols) as [Hnd Hdom].
    destruct (forIn_seed_run (forIn pols) pols n Hnd)
      as (pols' & off & Hrun & Hout & Hseed & Hbound & Hdisj).
    unfold mbind, Handler_bind, bind. rewrite Hrun. simpl.
    eexists _, off. split; [reflexivity|]. simpl. split_and!; try done.
    + exists pols'. split; [done|]. intros f.
      destruct (decide (f ∈ forIn pols)) as [Hf|Hf]; [by apply Hseed|].
      rewrite Hout by done.
      destruct (pols !! f) eqn:Hpf; [|done].
      destruct Hf. apply Hdom. by eexists.
    + intros ? f arr [= <-] Harr. apply Hbound; [|done].
      apply Hdom. by eexists.
    + intros ? f g arr brr [= <-] Hfg Harr Hbrr.
      apply Hdisj; try done; apply Hdom; by eexists.
  - exists op, (λ _, 0). unfold ret. split; [f_equal; lia|].
    split_and!; done.
Qed.

(** The run of [getInitState]: it never throws, draws one identifier per
    attachment, and seeds the list under every flow of every operation from
    an offset of its own; the ranges of two lists do not meet. *)
Lemma forEach_seed_run ops n :
  forIn_own_keys →
  ∃ ops' (off : nat → string → nat),
    forEach_seed ops n = (Some ops', n + count_attachments ops)
    ∧ length ops' = length ops
    ∧ (∀ k op, ops !! k = Some op →
         ∃ op', ops' !! k = Some op' ∧ seeds_operation (off k) op op')
    ∧ (∀ k f arr, flow_list ops k f arr →
         n ≤ off k f ∧ off k f + length arr ≤ n + count_attachments ops)
    ∧ (∀ k f arr k' f' arr',
         flow_list ops k f arr → flow_list ops k' f' arr' →
         (k, f) ≠ (k', f') →
         off k f + length arr ≤ off k' f' ∨ off k' f' + length arr' ≤ off k f).
Proof.
  intros Hkeys. revert n.
  induction ops as [|op0 ops IH]; intros n.
  - exists [], (λ _ _, 0). unfold count_attachments; simpl.
    split_and!; [unfold ret; f_equal; lia|done|..].
    + by intros k op.
    + by intros k f arr (op & pols & ? & _).
    + by intros k f arr k' f' arr' (op & pols & ? & _).
  - destruct (seed_operation_run op0 n Hkeys)
      as (op0' & off0 & Hrun0 & Hseed0 & Hbound0 & Hdisj0).
    destruct (IH (n + count_operation op0))
      as (ops' & off1 & Hrun & Hlen & Hseed & Hbound & Hdisj).
    assert (count_attachments (op0 :: ops)
            = count_operation op0 + count_attachments ops) as -> by done.
    exists (op0' :: ops'), (λ k, match k with 0 => off0 | S k => off1 k end).
    split_and!.
    + cbn [forEach_seed]. unfold mbind, Handler_bind, bind.
      rewrite Hrun0, Hrun. unfold ret. f_equal. lia.
    + simpl. by rewrite Hlen.
    + intros [|k] op; simpl; [|by apply Hseed].
      intros [= <-]. by exists op0'.
    + intros [|k] f arr (op & pols & Hop & Hp & Ha); simpl in Hop.
      * injection Hop as <-. destruct (Hbound0 pols f arr Hp Ha). lia.
      * destruct (Hbound k f arr); [by exists op, pols|]. lia.
    + intros [|k] f arr [|k'] f' arr'
        (op & pols & Hop & Hp & Ha) (op' & pols' & Hop' & Hp' & Ha') Hne;
        simpl in Hop, Hop'.
      * injection Hop as <-. injection Hop' as <-.
        assert (pols' = pols) as -> by congruence.
        apply (Hdisj0 pols f f' arr arr'); try done. congruence.
      * injection Hop as <-.
        destruct (Hbound0 pols f arr Hp Ha).
        destruct (Hbound k' f' arr'); [by exists op', pols'|]. left. lia.
      * injection Hop' as <-.
        destruct (Hbound0 pols' f' arr' Hp' Ha').
        destruct (Hbound k f arr); [by exists op, pols|]. right. lia.
      * apply (Hdisj k f arr k' f' arr');
          [by exists op, pols|by exists op', pols'|congruence].
Qed.

(** The lists of a seeded tree are the seeded lists of the tree. *)
Lemma seeded_flow_list ops ops' (off : nat → string → nat) k f arr' :
  length ops' = length ops →
  (∀ k op, ops !! k = Some op →
     ∃ op', ops' !! k = Some op' ∧ seeds_operation (off k) op op') →
  flow_list ops' k f arr' ↔
  ∃ arr, flow_list ops k f arr ∧ arr' = seeded (off k f) arr.
Proof.
  intros Hlen Hseed. split.
  - intros (op' & pols' & Hop' & Hp' & Ha').
    assert (k < length ops) as Hk.
    { rewrite <- Hlen. by eapply lookup_lt_Some. }
    destruct (lookup_lt_is_Some_2 ops k Hk) as [op Hop].
    destruct (Hseed k op Hop) as (op1 & Hop1 & _ & _ & _ & Hpols).
    assert (op1 = op') as -> by congruence.
    destruct (operationPolicies op) as [pols|] eqn:Hp; [|congruence].
    destruct Hpols as (pols1 & Hp1 & Hlook).
    assert (pols1 = pols') as -> by congruence.
    rewrite Hlook in Ha'.
    destruct (pols !! f) as [arr|] eqn:Ha; [|done].
    injection Ha' as <-. exists arr. split; [|done]. by exists op, pols.
  - intros (arr & (op & pols & Hop & Hp & Ha) & ->).
    destruct (Hseed k op Hop) as (op' & Hop' & _ & _ & _ & Hpols).
    rewrite Hp in Hpols. destruct Hpols as (pols' & Hp' & Hlook).
    exists op', pols'. split_and!; [done..|]. by rewrite Hlook, Ha.
Qed.

(** X1: [getInitState] never throws and draws exactly one identifier per
    attachment. The tree it returns has the operations of the API object
    with their target, verb and other properties, an operation without
    [operationPolicies] stays without, and the list under every flow has
    the same length and the same items in the same order, each with its
    uuid set; no flow is added. *)
Theorem getInitState_keeps_structure api_operations n :
  forIn_own_keys →
  ∃ ops',
    getInitState api_operations n
    = (Some ops', n + count_attachments api_operations)
    ∧ length ops' = length api_operations
    ∧ (∀ k op, api_operations !! k = Some op →
         ∃ op', ops' !! k = Some op'
           ∧ target op' = target op ∧ verb op' = verb op
           ∧ opOthers op' = opOthers op
           ∧ (operationPolicies op = None → operationPolicies op' = None))
    ∧ (∀ k f arr, flow_list api_operations k f arr →
         ∃ arr', flow_list ops' k f arr' ∧ length arr' = length arr
           ∧ ∀ j a, arr !! j = Some a →
               ∃ u, arr' !! j = Some (set_uuid a u))
    ∧ (∀ k f arr', flow_list ops' k f arr' →
         ∃ arr, flow_list api_operations k f arr ∧ length arr = length arr').
Proof.
  intros Hkeys. unfold getInitState.
  destruct (forEach_seed_run api_operations n Hkeys)
    as (ops' & off & Hrun & Hlen & Hseed & _ & _).
  exists ops'. split_and!; [done..| | |].
  - intros k op Hop.
    destruct (Hseed k op Hop) as (op' & Hop' & ? & ? & ? & Hpols).
    exists op'. split_and!; [done..|]. intros Hnone. by rewrite Hnone in Hpols.
  - intros k f arr Harr. exists (seeded (off k f) arr). split_and!.
    + apply (seeded_flow_list api_operations ops' off); [done..|]. by exists arr.
    + apply length_seeded.
    + intros j a Hj. eexists. by rewrite lookup_seeded, Hj.
  - intros k f arr' (arr & Harr & ->)%(seeded_flow_list api_operations ops' off); [|done..].
    exists arr. by rewrite length_seeded.
Qed.

Lemma getInitState_live_tree api_operations n :
  forIn_own_keys →
  Inj (=) (=) uuid_at →
  ∃ ops',
    getInitState api_operations n
    = (Some ops', n + count_attachments api_operations)
    ∧ (∀ a, attached ops' a →
         ∃ k, n ≤ k < n + count_attachments api_operations
              ∧ uuid a = Some (uuid_at k))
    ∧ ids_generated (n + count_attachments api_operations) ops'
    ∧ ids_unique ops'.
Proof.
  intros Hkeys Hinj. unfold getInitState.
  destruct (forEach_seed_run api_operations n Hkeys)
    as (ops' & off & Hrun & Hlen & Hseed & Hbound & Hdisj).
  assert (∀ k f arr j a', flow_list api_operations k f arr →
            seeded (off k f) arr !! j = Some a' →
            j < length arr ∧ uuid a' = Some (uuid_at (off k f + j))) as Hid.
  { intros k f arr j a' Harr Hj. rewrite lookup_seeded in Hj.
    destruct (arr !! j) as [a|] eqn:Ha; [|done]. injection Hj as <-.
    split; [by eapply lookup_lt_Some|done]. }
  assert (∀ a, attached ops' a →
            ∃ k, n ≤ k < n + count_attachments api_operations
                 ∧ uuid a = Some (uuid_at k)) as Hfresh.
  { intros a (k & f & arr' & Hflow & [j Hj]%list_elem_of_lookup).
    apply (seeded_flow_list api_operations ops' off) in Hflow as (arr & Harr & ->); [|done..].
    destruct (Hid _ _ _ _ _ Harr Hj) as [Hlt Hu].
    destruct (Hbound k f arr Harr).
    exists (off k f + j). split; [lia|done]. }
  exists ops'. split_and!; [done|done| |split].
  - intros a Ha. destruct (Hfresh a Ha) as (k & ? & ?).
    exists k. split; [lia|done].
  - intros k f arr' (arr & Harr & ->)%(seeded_flow_list api_operations ops' off); [|done..].
    apply NoDup_alt. intros i j u Hi Hj.
    rewrite list_lookup_fmap in Hi, Hj.
    destruct (seeded (off k f) arr !! i) as [a|] eqn:Hai; [|done].
    destruct (seeded (off k f) arr !! j) as [b|] eqn:Hbj; [|done].
    destruct (Hid _ _ _ _ _ Harr Hai) as [_ Hua].
    destruct (Hid _ _ _ _ _ Harr Hbj) as [_ Hub].
    simpl in Hi, Hj. rewrite Hua in Hi. rewrite Hub in Hj.
    assert (off k f + i = off k f + j) by (apply Hinj; congruence). lia.
  - intros k f arr1 k' f' arr1' a a'
      (arr & Harr & ->)%(seeded_flow_list api_operations ops' off)
      (arr' & Harr' & ->)%(seeded_flow_list api_operations ops' off) Hne
      [j Hj]%list_elem_of_lookup [j' Hj']%list_elem_of_lookup; [|done..].
    destruct (Hid _ _ _ _ _ Harr Hj) as [Hlt Hu].
    destruct (Hid _ _ _ _ _ Harr' Hj') as [Hlt' Hu'].
    rewrite Hu, Hu'. intros [= Heq%Hinj].
    destruct (Hdisj k f arr k' f' arr' Harr Harr' Hne); lia.
Qed.

(** X2: after [getInitState] every attachment of the tree carries one of
    the identifiers just drawn, whatever uuid it had in the API object, and
    with a generator that never repeats itself no identifier occurs twice
    in the tree. *)
Theorem getInitState_fresh_unique_ids api_operations n :
  forIn_own_keys →
  Inj (=) (=) uuid_at →
  ∃ ops',
    getInitState api_operations n
    = (Some ops', n + count_attachments api_operations)
    ∧ (∀ a, attached ops' a →
         ∃ k, n ≤ k < n + count_attachments api_operations
              ∧ uuid a = Some (uuid_at k))
    ∧ ids_generated (n + count_attachments api_operations) ops'
    ∧ ids_unique ops'.
Proof. apply getInitState_live_tree. Qed.

Lemma delete_uuid_id a : uuid a = None → delete_uuid a = a.
Proof. destruct a as [? ? u ?]; simpl. by intros ->. Qed.

Lemma without_uuids_id op :
  (∀ pols f arr a, operationPolicies op = Some pols → pols !! f = Some arr →
     a ∈ arr → uuid a = None) →
  without_uuids op = op.
Proof.
  intros Hnone. unfold without_uuids.
  destruct op as [t v [pols|] oth]; simpl in *; [|done].
  do 2 f_equal. apply map_eq. intros f. rewrite lookup_fmap.
  destruct (pols !! f) as [arr|] eqn:Ha; [|done]. simpl. f_equal.
  rewrite <- (list_fmap_id arr) at 2. apply list_fmap_ext.
  intros j a Hj. apply delete_uuid_id, (Hnone pols f arr); [done..|].
  by eapply list_elem_of_lookup_2.
Qed.

Lemma reconcile_seeded off arr :
  (∀ k, uuid_at k ≠ "") →
  reconcile_flow false (seeded off arr) = delete_uuid <$> arr.
Proof.
  intros Hne. rewrite reconcile_flow_unchanged.
  apply list_eq. intros j.
  rewrite !list_lookup_fmap, lookup_seeded.
  destruct (arr !! j) as [a|]; [|done]. simpl. f_equal.
  rewrite strip_uuid_truthy; [done|]. simpl. intros [= Hu]. by eapply Hne.
Qed.

(** X3: seeding and then saving with the gateway unchanged gives back the
    operations of the API object with the uuid deleted from every
    attachment, provided the generator never hands out the empty string;
    for an API object whose attachments carry no uuid the payload is the
    API object's operations, unchanged. *)
Theorem getInitState_saveApi_round_trip isCC api_operations n :
  forIn_own_keys →
  (∀ k, uuid_at k ≠ "") →
  ∃ ops',
    getInitState api_operations n
    = (Some ops', n + count_attachments api_operations)
    ∧ operations (saveApi isCC ops' false) = without_uuids <$> api_operations
    ∧ ((∀ a, attached api_operations a → uuid a = None) →
       operations (saveApi isCC ops' false) = api_operations).
Proof.
  intros Hkeys Hne. unfold getInitState.
  destruct (forEach_seed_run api_operations n Hkeys)
    as (ops' & off & Hrun & Hlen & Hseed & _ & _).
  assert (operations (saveApi isCC ops' false)
          = without_uuids <$> api_operations) as Hpayload.
  { simpl. apply list_eq. intros k. rewrite !list_lookup_fmap.
    destruct (api_operations !! k) as [op|] eqn:Hop.
    - destruct (Hseed k op Hop) as (op' & -> & Ht & Hv & Hoth & Hpols). simpl.
      f_equal. unfold reconcile_operation, without_uuids.
      destruct op as [t v pols oth], op' as [t' v' pols' oth'].
      simpl in *. subst t' v' oth'.
      destruct pols as [pols|]; [|by subst pols'].
      destruct Hpols as (pols1 & -> & Hlook). do 2 f_equal.
      apply map_eq. intros f. rewrite !lookup_fmap, Hlook.
      destruct (pols !! f) as [arr|]; [|done]. simpl.
      by rewrite reconcile_seeded.
    - rewrite (lookup_ge_None_2 ops'); [done|].
      rewrite Hlen. by apply lookup_ge_None. }
  exists ops'. split_and!; [done..|].
  intros Hnone. rewrite Hpayload.
  rewrite <- (list_fmap_id api_operations) at 2. apply list_fmap_ext.
  intros k op Hop. apply without_uuids_id. intros pols f arr a Hp Ha Hin.
  apply Hnone. exists k, f, arr. split; [by exists op, pols|done].
Qed.

(** *** The invariant of the live tree under the handlers *)

(** The lists of a tree with one list replaced. *)
Lemma flow_list_set_flow ops i op pols flow arr' k f l :
  ops !! i = Some op → operationPolicies op = Some pols →
  flow_list (<[i := set_flow op pols flow arr']> ops) k f l ↔
  (k = i ∧ f = flow ∧ l = arr') ∨ ((k, f) ≠ (i, flow) ∧ flow_list ops k f l).
Proof.
  intros Hi Hp. unfold flow_list. split.
  - intros (op1 & pols1 & Hk & Hp1 & Hf).
    destruct (decide (k = i)) as [->|Hne].
    + rewrite list_lookup_insert_eq in Hk by (by eapply lookup_lt_Some).
      injection Hk as <-. simpl in Hp1. injection Hp1 as <-.
      destruct (decide (f = flow)) as [->|Hf'].
      * rewrite lookup_insert_eq in Hf. injection Hf as <-. by left.
      * rewrite lookup_insert_ne in Hf by done.
        right. split; [congruence|]. by exists op, pols.
    + rewrite list_lookup_insert_ne in Hk by done.
      right. split; [congruence|]. by exists op1, pols1.
  - intros [(-> & -> & ->)|[Hne (op1 & pols1 & Hk & Hp1 & Hf)]].
    + exists (set_flow op pols flow arr'), (<[flow := arr']> pols).
      split_and!; [|done|apply lookup_insert_eq].
      apply list_lookup_insert_eq. by eapply lookup_lt_Some.
    + destruct (decide (k = i)) as [->|Hki].
      * assert (op1 = op) as -> by congruence.
        assert (pols1 = pols) as -> by congruence.
        exists (set_flow op pols flow arr'), (<[flow := arr']> pols).
        split_and!; [|done|].
        -- apply list_lookup_insert_eq. by eapply lookup_lt_Some.
        -- rewrite lookup_insert_ne; [done|]. congruence.
      * exists op1, pols1. by rewrite list_lookup_insert_ne.
Qed.

(** Replacing one list keeps the identifiers unique when the new list has
    no identifier twice and each of its identifiers is one of the old list
    or one that no attachment of the tree carries. *)
Lemma ids_unique_set_flow ops i op pols flow arr arr' :
  ops !! i = Some op → operationPolicies op = Some pols →
  pols !! flow = Some arr →
  ids_unique ops →
  NoDup (uuid <$> arr') →
  (∀ a', a' ∈ arr' →
     (∃ a, a ∈ arr ∧ uuid a = uuid a')
     ∨ (∀ b, attached ops b → uuid b ≠ uuid a')) →
  ids_unique (<[i := set_flow op pols flow arr']> ops).
Proof.
  intros Hi Hp Ha [Hin Hout] Hnd Hfrom.
  assert (flow_list ops i flow arr) as Harr by (by exists op, pols).
  assert (∀ k f l a' b, (k, f) ≠ (i, flow) → flow_list ops k f l →
            a' ∈ arr' → b ∈ l → uuid a' ≠ uuid b) as Hcross.
  { intros k f l a' b Hne Hl Ha' Hb.
    destruct (Hfrom a' Ha') as [(a & Hain & <-)|Hfresh].
    - apply (Hout i flow arr k f l a b); done.
    - intros Heq. apply (Hfresh b); [|done]. by exists k, f, l. }
  split.
  - intros k f l [(-> & -> & ->)|[Hne Hl]]%flow_list_set_flow; [done| |done..].
    by eapply Hin.
  - intros k f l k' f' l' a a'
      [(-> & -> & ->)|[Hne Hl]]%flow_list_set_flow
      [(-> & -> & ->)|[Hne' Hl']]%flow_list_set_flow Hkf Hal Hal'; try done.
    + apply (Hcross k' f' l' a a'); try done.
    + intros Heq. apply (Hcross k f l a' a); try done.
    + by apply (Hout k f l k' f' l' a a').
Qed.

(** An identifier not drawn yet is carried by no attachment. *)
Lemma ids_generated_fresh n ops m b :
  Inj (=) (=) uuid_at → ids_generated n ops → n ≤ m →
  attached ops b → uuid b ≠ Some (uuid_at m).
Proof.
  intros Hinj Hgen Hle Hb. destruct (Hgen b Hb) as (k & Hk & ->).
  intros [= Heq%Hinj]. lia.
Qed.

Lemma splice_sublist {A} (l : list A) (start deleteCount : Z) :
  Js.splice l start deleteCount `sublist_of` l.
Proof.
  unfold Js.splice.
  set (a := Z.to_nat _). set (b := Z.to_nat _).
  assert (a ≤ b) as Hab.
  { unfold a, b. apply Z2Nat.inj_le; case_match; lia. }
  rewrite <- (take_drop a l) at 3. apply sublist_app; [done|].
  replace b with (a + (b - a)) by lia. rewrite <- drop_drop.
  apply sublist_drop.
Qed.

Lemma arrayMove_Permutation {A} (l : list A) from to :
  arrayMove l from to ≡ₚ l.
Proof.
  unfold arrayMove. destruct (l !! from) as [x|] eqn:Hx; [|done].
  case_decide; [|done].
  rewrite <- Permutation_middle, take_drop.
  symmetry. by apply delete_Permutation.
Qed.

Lemma updateApiOperations_ids_unique isCC ops att target verb flow n ops' n' :
  Inj (=) (=) uuid_at →
  live_tree n ops →
  updateApiOperations isCC ops att target verb flow n = (Some ops', n') →
  ids_unique ops'.
Proof.
  intros Hinj [Hgen Huniq].
  destruct (operationInAction isCC ops target verb) as [[i op]|] eqn:Hop;
    [|by unfold updateApiOperations, mbind, Handler_bind, bind; rewrite Hop].
  pose proof (operationInAction_lookup _ _ _ _ _ _ Hop) as Hi.
  destruct (operationPolicies op) as [pols|] eqn:Hp;
    [|by unfold updateApiOperations, mbind, Handler_bind, bind;
         rewrite Hop; simpl; rewrite Hp].
  destruct (pols !! flow) as [arr|] eqn:Ha;
    [|by unfold updateApiOperations, mbind, Handler_bind, bind;
         rewrite Hop; simpl; rewrite Hp; simpl; rewrite Ha].
  assert (flow_list ops i flow arr) as Harr by (by exists op, pols).
  rewrite (updateApiOperations_found _ _ _ _ _ _ _ _ _ _ _ Hop Hp Ha).
  destruct (list_find (same_policy att) arr) as [[j p]|] eqn:Hfind.
  - intros [= <- <-]. apply list_find_Some in Hfind as (Hj & _ & _).
    apply (ids_unique_set_flow _ _ _ _ _ arr); try done.
    + rewrite list_fmap_insert. simpl.
      rewrite list_insert_id by (by rewrite list_lookup_fmap, Hj).
      by eapply (proj1 Huniq).
    + intros a' (k & Hk)%list_elem_of_lookup. left.
      apply list_lookup_insert_Some in Hk as [(-> & <- & _)|[_ Hk]].
      * exists p. split; [by eapply list_elem_of_lookup_2|done].
      * exists a'. split; [by eapply list_elem_of_lookup_2|done].
  - intros [= <- <-].
    assert (∀ b, attached ops b → uuid b ≠ Some (uuid_at n)) as Hfresh.
    { intros b Hb. by apply (ids_generated_fresh n ops n b). }
    apply (ids_unique_set_flow _ _ _ _ _ arr); try done.
    + rewrite fmap_app. apply NoDup_app. split_and!.
      * by eapply (proj1 Huniq).
      * intros u (b & -> & Hb)%list_elem_of_fmap Hu%list_elem_of_singleton.
        apply (Hfresh b); [|done]. by exists i, flow, arr.
      * apply NoDup_singleton.
    + intros a' [Hin| ->%list_elem_of_singleton]%elem_of_app.
      * left. by exists a'.
      * right. intros b Hb. by apply Hfresh.
Qed.

(** The lists of the tree [updateAllApiOperations] returns. *)
Lemma updateAllApiOperations_flow_list ops att flow n ops' n' k f l :
  updateAllApiOperations ops att flow n = (Some ops', n') →
  flow_list ops' k f l ↔
  ∃ l0, flow_list ops k f l0
        ∧ l = if decide (f = flow)
              then l0 ++ [set_uuid att (uuid_at (n + k))] else l0.
Proof.
  intros (-> & Hlen & Hk)%forEach_push_inv. split.
  - intros (op' & pols' & Hop' & Hp' & Hf).
    assert (k < length ops) as Hlt.
    { rewrite <- Hlen. by eapply lookup_lt_Some. }
    destruct (lookup_lt_is_Some_2 ops k Hlt) as [op Hop].
    destruct (Hk k op Hop) as (pols & arr & Hp & Harr & Hres).
    rewrite Hres in Hop'. injection Hop' as <-.
    simpl in Hp'. injection Hp' as <-.
    destruct (decide (f = flow)) as [->|Hne].
    + rewrite lookup_insert_eq in Hf. injection Hf as <-.
      exists arr. split; [by exists op, pols|done].
    + rewrite lookup_insert_ne in Hf by done.
      exists l. split; [by exists op, pols|done].
  - intros (l0 & (op & pols & Hop & Hp & Hf) & ->).
    destruct (Hk k op Hop) as (pols1 & arr & Hp1 & Harr & Hres).
    assert (pols1 = pols) as -> by congruence.
    eexists _, _. split_and!; [exact Hres|done|].
    destruct (decide (f = flow)) as [->|Hne].
    + rewrite lookup_insert_eq. congruence.
    + by rewrite lookup_insert_ne.
Qed.

Lemma updateAllApiOperations_ids_unique ops att flow n ops' n' :
  Inj (=) (=) uuid_at →
  live_tree n ops →
  updateAllApiOperations ops att flow n = (Some ops', n') →
  ids_unique ops'.
Proof.
  intros Hinj [Hgen [Hin Hout]] Hrun.
  assert (∀ k f l0 b m, flow_list ops k f l0 → b ∈ l0 →
            uuid b ≠ Some (uuid_at (n + m))) as Hfresh.
  { intros k f l0 b m Hl0 Hb.
    apply (ids_generated_fresh n ops (n + m) b); [done..|lia|].
    by exists k, f, l0. }
  split.
  - intros k f l (l0 & Hl0 & ->)%(updateAllApiOperations_flow_list _ _ _ _ _ _ _ _ _ Hrun).
    case_decide; [|by eapply Hin].
    rewrite fmap_app. apply NoDup_app. split_and!.
    + by eapply Hin.
    + intros u (b & -> & Hb)%list_elem_of_fmap Hu%list_elem_of_singleton.
      by apply (Hfresh k f l0 b k).
    + apply NoDup_singleton.
  - intros k f l k' f' l' a a'
      (l0 & Hl0 & ->)%(updateAllApiOperations_flow_list _ _ _ _ _ _ _ _ _ Hrun)
      (l0' & Hl0' & ->)%(updateAllApiOperations_flow_list _ _ _ _ _ _ _ _ _ Hrun)
      Hne Ha Ha'.
    assert (a ∈ l0 ∨ f = flow ∧ a = set_uuid att (uuid_at (n + k))) as Hcase.
    { destruct (decide (f = flow)); [|by left].
      apply elem_of_app in Ha as [?| ->%list_elem_of_singleton]; [by left|by right]. }
    assert (a' ∈ l0' ∨ f' = flow ∧ a' = set_uuid att (uuid_at (n + k')))
      as Hcase'.
    { destruct (decide (f' = flow)); [|by left].
      apply elem_of_app in Ha' as [?| ->%list_elem_of_singleton]; [by left|by right]. }
    destruct Hcase as [Hold|[-> ->]], Hcase' as [Hold'|[-> ->]].
    + by apply (Hout k f l0 k' f' l0' a a').
    + by apply (Hfresh k f l0 a k').
    + intros Heq. by apply (Hfresh k' f' l0' a' k).
    + simpl. intros [= Heq%Hinj]. apply Hne. f_equal. lia.
Qed.

(** A handler that replaces one list by a part of it attaches nothing
    new. *)
Lemma attached_set_flow_part ops i op pols flow arr arr' a :
  ops !! i = Some op → operationPolicies op = Some pols →
  pols !! flow = Some arr →
  (∀ b, b ∈ arr' → b ∈ arr) →
  attached (<[i := set_flow op pols flow arr']> ops) a → attached ops a.
Proof.
  intros Hi Hp Ha Hpart Hatt.
  destruct (attached_set_flow _ _ _ _ _ _ _ Hi Hp Hatt) as [Hin|]; [|done].
  exists i, flow, arr. split; [by exists op, pols|by apply Hpart].
Qed.

Lemma ids_unique_set_flow_part ops i op pols flow arr arr' :
  ops !! i = Some op → operationPolicies op = Some pols →
  pols !! flow = Some arr →
  ids_unique ops →
  NoDup (uuid <$> arr') → (∀ b, b ∈ arr' → b ∈ arr) →
  ids_unique (<[i := set_flow op pols flow arr']> ops).
Proof.
  intros Hi Hp Ha Huniq Hnd Hpart.
  apply (ids_unique_set_flow _ _ _ _ _ arr); try done.
  intros a' Ha'. left. exists a'. split; [by apply Hpart|done].
Qed.

(** What [deleteApiOperation] returns when it does not throw. *)
Lemma deleteApiOperation_Some ops uuid target verb flow ops' :
  deleteApiOperation ops uuid target verb flow = Some ops' →
  ∃ i op pols arr,
    list_find (match_target_verb target verb) ops = Some (i, op)
    ∧ operationPolicies op = Some pols ∧ pols !! flow = Some arr
    ∧ ops' = <[i := set_flow op pols flow
                      (Js.splice arr (Js.indexOf (Types.uuid <$> arr)
                                        (Some uuid)) 1)]> ops.
Proof.
  unfold deleteApiOperation.
  destruct (list_find _ ops) as [[i op]|] eqn:Hop; simpl; [|done].
  destruct (operationPolicies op) as [pols|] eqn:Hp; simpl; [|done].
  destruct (pols !! flow) as [arr|] eqn:Ha; simpl; [|done].
  intros [= <-]. by exists i, op, pols, arr.
Qed.

Lemma rearrangeApiOperations_Some ops oldIndex newIndex target verb flow ops' :
  rearrangeApiOperations ops oldIndex newIndex target verb flow = Some ops' →
  ∃ i op pols arr,
    list_find (match_target_verb target verb) ops = Some (i, op)
    ∧ operationPolicies op = Some pols ∧ pols !! flow = Some arr
    ∧ ops' = <[i := set_flow op pols flow
                      (arrayMove arr oldIndex newIndex)]> ops.
Proof.
  unfold rearrangeApiOperations.
  destruct (list_find _ ops) as [[i op]|] eqn:Hop; simpl; [|done].
  destruct (operationPolicies op) as [pols|] eqn:Hp; simpl; [|done].
  destruct (pols !! flow) as [arr|] eqn:Ha; simpl; [|done].
  intros [= <-]. by exists i, op, pols, arr.
Qed.

Lemma deleteApiOperation_live n ops uuid target verb flow ops' :
  live_tree n ops →
  deleteApiOperation ops uuid target verb flow = Some ops' →
  live_tree n ops' ∧ ∀ a, attached ops' a → attached ops a.
Proof.
  intros [Hgen Huniq] (i & op & pols & arr & Hop & Hp & Ha & ->)%deleteApiOperation_Some.
  assert (ops !! i = Some op) as Hi by (by apply list_find_Some in Hop as (? & _)).
  set (arr' := Js.splice arr _ 1).
  assert (arr' `sublist_of` arr) as Hsub by apply splice_sublist.
  assert (∀ b, b ∈ arr' → b ∈ arr) as Hpart.
  { intros b Hb. by eapply sublist_subseteq. }
  assert (∀ a, attached (<[i := set_flow op pols flow arr']> ops) a →
            attached ops a) as Hatt.
  { intros a. by apply (attached_set_flow_part _ _ _ _ _ arr). }
  split; [split|done].
  - intros a Hin. by apply Hgen, Hatt.
  - apply (ids_unique_set_flow_part _ _ _ _ _ arr); try done.
    eapply sublist_NoDup; [|by apply fmap_sublist].
    apply (proj1 Huniq i flow). by exists op, pols.
Qed.

Lemma rearrangeApiOperations_live n ops oldIndex newIndex target verb flow ops' :
  live_tree n ops →
  rearrangeApiOperations ops oldIndex newIndex target verb flow = Some ops' →
  live_tree n ops' ∧ ∀ a, attached ops' a ↔ attached ops a.
Proof.
  intros [Hgen Huniq]
    (i & op & pols & arr & Hop & Hp & Ha & ->)%rearrangeApiOperations_Some.
  assert (ops !! i = Some op) as Hi by (by apply list_find_Some in Hop as (? & _)).
  set (arr' := arrayMove arr oldIndex newIndex).
  assert (arr' ≡ₚ arr) as Hperm by apply arrayMove_Permutation.
  assert (∀ b, b ∈ arr' ↔ b ∈ arr) as Hpart.
  { intros b. by rewrite Hperm. }
  assert (∀ a, attached (<[i := set_flow op pols flow arr']> ops) a ↔
            attached ops a) as Hatt.
  { intros a. split.
    - apply (attached_set_flow_part _ _ _ _ _ arr); try done.
      intros b. apply Hpart.
    - intros (k & f & l & Hl & Hin).
      destruct (decide ((k, f) = (i, flow))) as [[= -> ->]|Hne].
      + exists i, flow, arr'. split.
        * apply flow_list_set_flow; [done..|]. by left.
        * destruct Hl as (op1 & pols1 & ? & ? & ?).
          assert (l = arr) as -> by congruence. by apply Hpart.
      + exists k, f, l. split; [|done].
        apply flow_list_set_flow; [done..|]. by right. }
  split; [split|done].
  - intros a Hin. by apply Hgen, Hatt.
  - apply (ids_unique_set_flow_part _ _ _ _ _ arr); try done.
    + rewrite Hperm. apply (proj1 Huniq i flow). by exists op, pols.
    + intros b. apply Hpart.
Qed.

(** *** deleteApiOperation, on a uuid of the list *)

Lemma indexOf_first {A} `{EqDecision A} (l : list A) (x : A) j :
  l !! j = Some x →
  (∀ k y, l !! k = Some y → k < j → y ≠ x) →
  Js.indexOf l x = Z.of_nat j.
Proof.
  revert j. induction l as [|y l IH]; intros j Hj Hfirst; [done|].
  destruct j as [|j]; simpl in *.
  - injection Hj as ->. by rewrite decide_True.
  - rewrite decide_False by (by apply (Hfirst 0); [|lia]).
    rewrite (IH j Hj).
    + destruct (Z.ltb_spec (Z.of_nat j) 0); lia.
    + intros k z Hk Hlt. apply (Hfirst (S k)); [done|lia].
Qed.

Lemma splice_one {A} (l : list A) j :
  j < length l → Js.splice l (Z.of_nat j) 1 = delete j l.
Proof.
  intros Hj. unfold Js.splice. rewrite delete_take_drop.
  destruct (Z.ltb_spec (Z.of_nat j) 0); [lia|].
  f_equal; f_equal; lia.
Qed.

(** X4: when the list holds the uuid, [deleteApiOperation] removes the
    first attachment that carries it and nothing else: that list alone
    changes, it is one shorter, and the attachments that stay keep their
    order. When no uuid occurs twice in the list, this is the one
    attachment with that uuid. *)
Theorem deleteApiOperation_known_uuid ops uuid target verb flow
    i op pols arr j a :
  list_find (match_target_verb target verb) ops = Some (i, op) →
  operationPolicies op = Some pols →
  pols !! flow = Some arr →
  arr !! j = Some a → Types.uuid a = Some uuid →
  (∀ k b, arr !! k = Some b → k < j → Types.uuid b ≠ Some uuid) →
  ∃ ops',
    deleteApiOperation ops uuid target verb flow = Some ops'
    ∧ only_flow_changed ops ops' i flow (delete j arr)
    ∧ S (length (delete j arr)) = length arr
    ∧ (NoDup (Types.uuid <$> arr) →
       ∀ b, b ∈ delete j arr → Types.uuid b ≠ Some uuid).
Proof.
  intros Hop Hp Ha Hj Hu Hfirst.
  assert (ops !! i = Some op) as Hi by (by apply list_find_Some in Hop as (? & _)).
  pose proof (lookup_lt_Some _ _ _ Hj) as Hlt.
  assert (Js.indexOf (Types.uuid <$> arr) (Some uuid) = Z.of_nat j) as Hindex.
  { apply indexOf_first.
    - by rewrite list_lookup_fmap, Hj; simpl; rewrite Hu.
    - intros k y Hk Hkj. rewrite list_lookup_fmap in Hk.
      destruct (arr !! k) as [b|] eqn:Hb; [|done]. injection Hk as <-.
      by apply (Hfirst k b). }
  exists (<[i := set_flow op pols flow (delete j arr)]> ops). split_and!.
  - unfold deleteApiOperation. rewrite Hop; simpl. rewrite Hp; simpl.
    rewrite Ha; simpl. by rewrite Hindex, splice_one.
  - by apply set_flow_only_flow_changed.
  - rewrite length_delete by eauto. lia.
  - intros Hnd b [k Hk]%list_elem_of_lookup Hb.
    rewrite list_lookup_delete in Hk.
    assert (∀ m, arr !! m = Some b → m = j) as Hsame.
    { intros m Hm. apply (NoDup_lookup _ m j (Some uuid) Hnd).
      - by rewrite list_lookup_fmap, Hm; simpl; rewrite Hb.
      - by rewrite list_lookup_fmap, Hj; simpl; rewrite Hu. }
    case_decide; apply Hsame in Hk; lia.
Qed.


(** *** When the handlers throw *)

Lemma updateApiOperations_outcome isCC ops att target verb flow n :
  (∃ i op pols arr,
     operationInAction isCC ops target verb = Some (i, op)
     ∧ operationPolicies op = Some pols ∧ pols !! flow = Some arr
     ∧ ∃ ops' n', updateApiOperations isCC ops att target verb flow n
                  = (Some ops', n') ∧ n ≤ n')
  ∨ ((∀ i op, operationInAction isCC ops target verb = Some (i, op) →
        ¬ has_flow flow op)
     ∧ updateApiOperations isCC ops att target verb flow n = (None, n)).
Proof.
  destruct (operationInAction isCC ops target verb) as [[i op]|] eqn:Hop.
  - destruct (operationPolicies op) as [pols|] eqn:Hp.
    + destruct (pols !! flow) as [arr|] eqn:Ha.
      * left. exists i, op, pols, arr. split_and!; [done..|].
        rewrite (updateApiOperations_found _ _ _ _ _ _ _ _ _ _ _ Hop Hp Ha).
        destruct (list_find _ arr) as [[j p]|]; eexists _, _; split; done || lia.
      * right. split.
        -- intros ? ? [= <- <-] (pols' & arr & ? & ?). congruence.
        -- unfold updateApiOperations, mbind, Handler_bind, bind.
           rewrite Hop; simpl. rewrite Hp; simpl. by rewrite Ha.
    + right. split.
      * intros ? ? [= <- <-] (pols' & arr & ? & ?). congruence.
      * unfold updateApiOperations, mbind, Handler_bind, bind.
        rewrite Hop; simpl. by rewrite Hp.
  - right. split; [done|].
    unfold updateApiOperations, mbind, Handler_bind, bind. by rewrite Hop.
Qed.

(** X6: [updateApiOperations] throws exactly when the locator finds no
    operation or the operation found carries no list under the flow; the
    incoming attachment plays no part in it, and a call that throws draws
    no identifier. *)
Theorem updateApiOperations_throws isCC ops att target verb flow n :
  ((updateApiOperations isCC ops att target verb flow n).1 = None ↔
   ∀ i op, operationInAction isCC ops target verb = Some (i, op) →
           ¬ has_flow flow op)
  ∧ ((updateApiOperations isCC ops att target verb flow n).1 = None →
     (updateApiOperations isCC ops att target verb flow n).2 = n).
Proof.
  destruct (updateApiOperations_outcome isCC ops att target verb flow n)
    as [(i & op & pols & arr & Hop & Hp & Ha & ops' & n' & -> & _)|[Hno ->]];
    simpl.
  - split; [|done]. split; [done|]. intros Hno.
    destruct (Hno i op Hop). by exists pols, arr.
  - done.
Qed.

Lemma forEach_push_drawn att flow ops n :
  n ≤ (forEach_push att flow ops n).2 ≤ n + length ops.
Proof.
  revert n. induction ops as [|op ops IH]; intros n; simpl; [lia|].
  unfold mbind, Handler_bind, bind.
  destruct (push_policy att flow op n) as [[op1|] n1] eqn:Hpush.
  - apply push_policy_inv in Hpush as (-> & _).
    specialize (IH (S n)).
    destruct (forEach_push att flow ops (S n)) as [[rest|] n2]; simpl in *; lia.
  - unfold push_policy, mbind, Handler_bind, bind in Hpush; simpl in Hpush.
    destruct (operationPolicies op) as [pols|]; simpl in Hpush.
    + destruct (pols !! flow); simpl in Hpush; simplify_eq; simpl; lia.
    + simplify_eq. simpl. lia.
Qed.

Lemma forEach_push_None att flow ops n :
  (forEach_push att flow ops n).1 = None ↔ Exists (λ op, ¬ has_flow flow op) ops.
Proof.
  revert n. induction ops as [|op ops IH]; intros n; simpl.
  - split; [done|]. by intros ?%Exists_nil.
  - rewrite Exists_cons. unfold mbind, Handler_bind, bind.
    destruct (push_policy att flow op n) as [[op1|] n1] eqn:Hpush.
    + apply push_policy_inv in Hpush as (-> & pols & arr & Hp & Ha & _).
      specialize (IH (S n)).
      destruct (forEach_push att flow ops (S n)) as [[rest|] n2]; simpl in *.
      * split; [done|]. intros [Hno|Hex]; [|by apply IH in Hex].
        destruct Hno. by exists pols, arr.
      * split; [|done]. intros _. right. by apply IH.
    + simpl. split; [|done]. intros _. left. intros (pols & arr & Hp & Ha).
      by rewrite (push_policy_ok _ _ _ _ _ _ Hp Ha) in Hpush.
Qed.

(** X7: [updateAllApiOperations] throws exactly when some operation of the
    tree carries no list under the flow; on the empty tree it returns the
    empty tree and draws nothing; whether it throws or not, it draws at
    most one identifier per operation. *)
Theorem updateAllApiOperations_throws ops att flow n :
  ((updateAllApiOperations ops att flow n).1 = None ↔
   Exists (λ op, ¬ has_flow flow op) ops)
  ∧ updateAllApiOperations [] att flow n = (Some [], n)
  ∧ n ≤ (updateAllApiOperations ops att flow n).2 ≤ n + length ops.
Proof.
  unfold updateAllApiOperations. split_and!.
  - apply forEach_push_None.
  - done.
  - apply forEach_push_drawn.
  - apply forEach_push_drawn.
Qed.

(** X8: [deleteApiOperation] and [rearrangeApiOperations] look the
    operation up by target and verb whatever the gateway mode, and throw
    exactly when no operation matches or the operation found carries no
    list under the flow; the uuid and the indices play no part in it. *)
Theorem delete_rearrange_throw ops target verb flow :
  (∀ uuid,
     deleteApiOperation ops uuid target verb flow = None ↔
     ∀ i op, list_find (match_target_verb target verb) ops = Some (i, op) →
             ¬ has_flow flow op)
  ∧ (∀ oldIndex newIndex,
       rearrangeApiOperations ops oldIndex newIndex target verb flow = None ↔
       ∀ i op, list_find (match_target_verb target verb) ops = Some (i, op) →
               ¬ has_flow flow op).
Proof.
  unfold deleteApiOperation, rearrangeApiOperations.
  split; intros; (
    destruct (list_find _ ops) as [[i op]|] eqn:Hop; simpl; [|done];
    destruct (operationPolicies op) as [pols|] eqn:Hp; simpl;
      [destruct (pols !! flow) as [arr|] eqn:Ha; simpl|]; split; try done).
  - intros Hno. destruct (Hno i op eq_refl). by exists pols, arr.
  - intros _ ? ? [= <- <-] (pols' & arr & ? & ?). congruence.
  - intros _ ? ? [= <- <-] (pols' & arr & ? & ?). congruence.
  - intros Hno. destruct (Hno i op eq_refl). by exists pols, arr.
  - intros _ ? ? [= <- <-] (pols' & arr & ? & ?). congruence.
  - intros _ ? ? [= <- <-] (pols' & arr & ? & ?). congruence.
Qed.

(** *** How the handlers compose *)

Lemma list_find_insert_same {A} (P : A → Prop) `{∀ x, Decision (P x)}
    (l : list A) i x y :
  list_find P l = Some (i, x) → P y →
  list_find P (<[i := y]> l) = Some (i, y).
Proof.
  intros (Hi & _ & Hleast)%list_find_Some Hy. apply list_find_Some.
  split_and!; [|done|].
  - apply list_lookup_insert_eq. by eapply lookup_lt_Some.
  - intros j z Hj Hlt. rewrite list_lookup_insert_ne in Hj by lia.
    by apply (Hleast j).
Qed.

(** Replacing a list does not move the operation out of the locators'
    sight. *)
Lemma operationInAction_set_flow isCC ops target verb i op pols flow arr' :
  operationInAction isCC ops target verb = Some (i, op) →
  operationInAction isCC (<[i := set_flow op pols flow arr']> ops) target verb
  = Some (i, set_flow op pols flow arr').
Proof.
  unfold operationInAction. destruct isCC; intros Hop;
    apply (list_find_insert_same _ _ _ op); try done;
    by apply list_find_Some in Hop as (_ & ? & _).
Qed.

Lemma set_flow_set_flow op pols flow arr1 arr2 :
  set_flow (set_flow op pols flow arr1) (<[flow := arr1]> pols) flow arr2
  = set_flow op pols flow arr2.
Proof. unfold set_flow. simpl. by rewrite insert_insert_eq. Qed.

Lemma set_flow_id op pols flow arr :
  operationPolicies op = Some pols → pols !! flow = Some arr →
  set_flow op pols flow arr = op.
Proof.
  intros Hp Ha. unfold set_flow. rewrite insert_id by done.
  destruct op; simpl in *. by subst.
Qed.

Lemma indexOf_snoc_new (arr : list ApiPolicy) new u :
  Some u ∉ uuid <$> arr → uuid new = Some u →
  Js.indexOf (uuid <$> arr ++ [new]) (Some u) = Z.of_nat (length arr).
Proof.
  intros Hfresh Hnew. apply indexOf_first.
  - rewrite list_lookup_fmap, lookup_app_r by done.
    by rewrite Nat.sub_diag; simpl; rewrite Hnew.
  - intros k y Hk Hlt -> . apply Hfresh.
    rewrite fmap_app, lookup_app_l in Hk by (by rewrite length_fmap).
    by eapply list_elem_of_lookup_2.
Qed.

(** X9: adding an attachment and then deleting the identifier it was given
    gives back the tree as it was before, whenever [deleteApiOperation]
    finds the operation the add went to (in regular mode it always does)
    and the identifier drawn is carried by no attachment of the list. *)
Theorem add_then_delete_restores isCC ops att target verb flow n
    i op pols arr :
  operationInAction isCC ops target verb = Some (i, op) →
  list_find (match_target_verb target verb) ops = Some (i, op) →
  operationPolicies op = Some pols →
  pols !! flow = Some arr →
  Forall (λ p, ¬ same_policy att p) arr →
  Some (uuid_at n) ∉ uuid <$> arr →
  ∃ ops',
    updateApiOperations isCC ops att target verb flow n = (Some ops', S n)
    ∧ flow_list ops' i flow (arr ++ [set_uuid att (uuid_at n)])
    ∧ deleteApiOperation ops' (uuid_at n) target verb flow = Some ops.
Proof.
  intros Hop Hfind Hp Ha Hnone Hfresh.
  assert (ops !! i = Some op) as Hi by (by apply list_find_Some in Hfind as (? & _)).
  set (new := set_uuid att (uuid_at n)).
  exists (<[i := set_flow op pols flow (arr ++ [new])]> ops). split_and!.
  - rewrite (updateApiOperations_found _ _ _ _ _ _ _ _ _ _ _ Hop Hp Ha).
    apply (list_find_None (same_policy att)) in Hnone. by rewrite Hnone.
  - apply flow_list_set_flow; [done..|]. by left.
  - unfold deleteApiOperation.
    pose proof (operationInAction_set_flow false ops target verb i op pols
                  flow (arr ++ [new]) Hfind) as Hfind'.
    unfold operationInAction in Hfind'. rewrite Hfind'.
    simpl. rewrite lookup_insert_eq. simpl.
    rewrite (indexOf_snoc_new arr new (uuid_at n)) by done.
    rewrite splice_one by (rewrite length_app; simpl; lia).
    rewrite delete_middle, app_nil_r.
    rewrite list_insert_insert_eq, set_flow_set_flow.
    rewrite (set_flow_id op pols flow arr Hp Ha).
    by rewrite list_insert_id.
Qed.

(** X10: an attachment just added can be edited through the identifier it
    was given: the second call finds it, replaces its parameters in place
    and draws nothing, so the list is the old list followed by the one new
    attachment with the new parameters. *)
Theorem add_then_edit_in_place isCC ops att ps target verb flow n
    i op pols arr :
  operationInAction isCC ops target verb = Some (i, op) →
  operationPolicies op = Some pols →
  pols !! flow = Some arr →
  Forall (λ p, ¬ same_policy att p) arr →
  Some (uuid_at n) ∉ uuid <$> arr →
  ∃ ops' ops'',
    updateApiOperations isCC ops att target verb flow n = (Some ops', S n)
    ∧ updateApiOperations isCC ops'
        (set_parameters (set_uuid att (uuid_at n)) ps) target verb flow (S n)
      = (Some ops'', S n)
    ∧ only_flow_changed ops ops'' i flow
        (arr ++ [set_parameters (set_uuid att (uuid_at n)) ps]).
Proof.
  intros Hop Hp Ha Hnone Hfresh.
  pose proof (operationInAction_lookup _ _ _ _ _ _ Hop) as Hi.
  set (new := set_uuid att (uuid_at n)).
  set (arr1 := arr ++ [new]).
  set (op1 := set_flow op pols flow arr1).
  exists (<[i := op1]> ops),
    (<[i := set_flow op pols flow (arr ++ [set_parameters new ps])]> ops).
  split_and!.
  - rewrite (updateApiOperations_found _ _ _ _ _ _ _ _ _ _ _ Hop Hp Ha).
    apply (list_find_None (same_policy att)) in Hnone. by rewrite Hnone.
  - pose proof (operationInAction_set_flow isCC ops target verb i op pols flow
                  arr1 Hop) as Hop1.
    rewrite (updateApiOperations_found isCC _ _ target verb flow (S n) i op1
               (<[flow := arr1]> pols) arr1 Hop1);
      [|done|apply lookup_insert_eq].
    assert (list_find (same_policy (set_parameters new ps)) arr1
            = Some (length arr, new)) as ->.
    { apply list_find_Some. split_and!.
      - unfold arr1. by rewrite lookup_app_r, Nat.sub_diag.
      - done.
      - intros j p Hj Hlt [_ Hu]. apply Hfresh.
        unfold arr1 in Hj. rewrite lookup_app_l in Hj by done.
        apply list_elem_of_fmap. exists p.
        split; [done|by eapply list_elem_of_lookup_2]. }
    f_equal. f_equal.
    rewrite list_insert_insert_eq. unfold op1. rewrite set_flow_set_flow.
    do 2 f_equal. unfold arr1.
    rewrite <- (Nat.add_0_r (length arr)), insert_app_r. done.
  - by apply set_flow_only_flow_changed.
Qed.

(** X11: in a tree whose attachments all carry an identifier, an incoming
    attachment without uuid (a policy dropped from the catalog) is never
    taken for an edit: it is appended, with the identifier drawn, and the
    attachments of the list stay as they were. *)
Theorem new_attachment_is_appended isCC ops att target verb flow n
    i op pols arr :
  ids_generated n ops →
  uuid att = None →
  operationInAction isCC ops target verb = Some (i, op) →
  operationPolicies op = Some pols →
  pols !! flow = Some arr →
  ∃ ops',
    updateApiOperations isCC ops att target verb flow n = (Some ops', S n)
    ∧ only_flow_changed ops ops' i flow (arr ++ [set_uuid att (uuid_at n)]).
Proof.
  intros Hgen Hu Hop Hp Ha.
  pose proof (operationInAction_lookup _ _ _ _ _ _ Hop) as Hi.
  eexists. split.
  - rewrite (updateApiOperations_found _ _ _ _ _ _ _ _ _ _ _ Hop Hp Ha).
    assert (list_find (same_policy att) arr = None) as ->; [|done].
    apply list_find_None, Forall_forall. intros p Hin [_ Hsame].
    destruct (Hgen p) as (k & _ & Hk); [|congruence].
    exists i, flow, arr. split; [by exists op, pols|done].
  - by apply set_flow_only_flow_changed.
Qed.

(** *** The editing session *)

Lemma live_tree_mono n n' ops : n ≤ n' → live_tree n ops → live_tree n' ops.
Proof. intros Hle [Hgen Huniq]. split; [by eapply ids_generated_mono|done]. Qed.

(** No action breaks the invariant of the live tree. *)
Lemma dispatch_live st a :
  forIn_own_keys → Inj (=) (=) uuid_at →
  live_tree (st_drawn st) (st_apiOperations st) →
  st_drawn st ≤ st_drawn (dispatch st a)
  ∧ live_tree (st_drawn (dispatch st a)) (st_apiOperations (dispatch st a)).
Proof.
  intros Hkeys Hinj Hlive.
  destruct a as [att t v f|att f|u t v f|old new t v f|g| |b|api]; simpl;
    try done.
  - destruct (updateApiOperations_outcome (st_isChoreoConnectEnabled st)
                (st_apiOperations st) att t v f (st_drawn st))
      as [(i & op & pols & arr & _ & _ & _ & ops' & n' & Hrun & Hle)|[_ Hrun]];
      rewrite Hrun; simpl; [|done].
    split; [done|]. split.
    + by eapply updateApiOperations_ids_generated; [apply Hlive|].
    + by eapply updateApiOperations_ids_unique.
  - pose proof (forEach_push_drawn att f (st_apiOperations st) (st_drawn st))
      as Hle.
    unfold updateAllApiOperations.
    destruct (forEach_push att f (st_apiOperations st) (st_drawn st))
      as [[ops'|] n'] eqn:Hrun; simpl in *.
    + split; [lia|]. split.
      * by eapply updateAllApiOperations_ids_generated; [apply Hlive|].
      * by eapply updateAllApiOperations_ids_unique.
    + split; [lia|]. apply (live_tree_mono (st_drawn st)); [lia|done].
  - destruct (deleteApiOperation (st_apiOperations st) u t v f)
      as [ops'|] eqn:Hrun; simpl; [|done].
    split; [done|]. by eapply deleteApiOperation_live.
  - destruct (rearrangeApiOperations (st_apiOperations st) old new t v f)
      as [ops'|] eqn:Hrun; simpl; [|done].
    split; [done|]. by eapply rearrangeApiOperations_live.
  - destruct (getInitState_live_tree api (st_drawn st) Hkeys Hinj)
      as (ops' & -> & _ & Hgen & Huniq). simpl. split; [lia|done].
Qed.

Lemma mount_live api_operations gatewayType n :
  forIn_own_keys → Inj (=) (=) uuid_at →
  n ≤ st_drawn (mount api_operations gatewayType n)
  ∧ live_tree (st_drawn (mount api_operations gatewayType n))
      (st_apiOperations (mount api_operations gatewayType n)).
Proof.
  intros Hkeys Hinj. unfold mount.
  destruct (getInitState_live_tree api_operations n Hkeys Hinj)
    as (ops1 & -> & _). simpl.
  destruct (getInitState_live_tree api_operations
              (n + count_attachments api_operations) Hkeys Hinj)
    as (ops2 & -> & _ & Hgen & Huniq). simpl. split; [lia|done].
Qed.

(** A payload built from a live tree carries no uuid, whichever way
    [saveApi] was called. *)
Lemma saveApi_live_no_uuid isCC n ops changed a :
  (∀ k, uuid_at k ≠ "") →
  ids_generated n ops →
  attached (operations (saveApi isCC ops changed)) a → uuid a = None.
Proof.
  intros Hne Hgen (k & f & arr' & (arr & Harr & ->)%saveApi_flow_list & Ha).
  destruct changed.
  - rewrite reconcile_flow_changed in Ha. by apply elem_of_nil in Ha.
  - rewrite reconcile_flow_unchanged in Ha.
    apply list_elem_of_fmap in Ha as (b & -> & Hb).
    rewrite strip_uuid_truthy; [done|].
    destruct (Hgen b) as (m & _ & ->); [by exists k, f, arr|].
    intros [= Hu]. by eapply Hne.
Qed.

Lemma session_live api_operations gatewayType n st :
  forIn_own_keys → Inj (=) (=) uuid_at →
  reachable (mount api_operations gatewayType n) st →
  n ≤ st_drawn st ∧ live_tree (st_drawn st) (st_apiOperations st).
Proof.
  intros Hkeys Hinj. induction 1 as [|st a _ (Hle & Hlive) _].
  - by apply mount_live.
  - destruct (dispatch_live st a Hkeys Hinj Hlive) as [Hle' Hlive'].
    split; [lia|done].
Qed.

(** X12: in every state an editing session can reach from the mounted
    component, every attachment of the tree carries an identifier the
    generator has handed out, and no identifier occurs twice, neither
    within a list nor in two lists (for a generator that never repeats
    itself). *)
Theorem session_identifiers_stay_unique api_operations gatewayType n st :
  forIn_own_keys → Inj (=) (=) uuid_at →
  reachable (mount api_operations gatewayType n) st →
  ids_generated (st_drawn st) (st_apiOperations st)
  ∧ ids_unique (st_apiOperations st).
Proof.
  intros Hkeys Hinj Hreach.
  by destruct (session_live _ _ _ _ Hkeys Hinj Hreach) as [_ [? ?]].
Qed.

(** X13: no payload an editing session hands to [updateAPI] holds an
    attachment with a uuid, whatever the actions before it and whichever
    way [saveApi] is called, provided the generator never repeats itself
    and never hands out the empty string. *)
Theorem session_never_sends_uuid api_operations gatewayType n st :
  forIn_own_keys → Inj (=) (=) uuid_at → (∀ k, uuid_at k ≠ "") →
  reachable (mount api_operations gatewayType n) st →
  ∀ payload a,
    payload ∈ st_sent st → attached (operations payload) a → uuid a = None.
Proof.
  intros Hkeys Hinj Hne Hreach.
  assert (Forall (λ payload, ∀ a, attached (operations payload) a →
                               uuid a = None) (st_sent st)) as Hsent.
  { induction Hreach as [|st a Hreach Hsent _]; [by apply Forall_nil|].
    destruct (session_live _ _ _ _ Hkeys Hinj Hreach) as [_ [Hgen _]].
    destruct a; simpl; try done.
    apply Forall_app. split; [done|]. apply Forall_singleton.
    intros a. by apply (saveApi_live_no_uuid _ (st_drawn st)). }
  intros payload a Hin. rewrite Forall_forall in Hsent. by apply Hsent.
Qed.

(** X14: the mounted component has run [getInitState] twice, once for the
    initial state and once in the effect on [api]: with [N] attachments in
    the API object it has drawn [2 N] identifiers, and the tree it shows
    carries those of the second run. *)
Theorem mount_draws_twice api_operations gatewayType n :
  forIn_own_keys → Inj (=) (=) uuid_at →
  st_drawn (mount api_operations gatewayType n)
  = n + 2 * count_attachments api_operations
  ∧ (∀ a, attached (st_apiOperations (mount api_operations gatewayType n)) a →
       ∃ k, n + count_attachments api_operations ≤ k
              < n + 2 * count_attachments api_operations
            ∧ uuid a = Some (uuid_at k))
  ∧ st_sent (mount api_operations gatewayType n) = []
  ∧ st_updating (mount api_operations gatewayType n) = false.
Proof.
  intros Hkeys Hinj. unfold mount.
  destruct (getInitState_live_tree api_operations n Hkeys Hinj)
    as (ops1 & -> & _). simpl.
  destruct (getInitState_live_tree api_operations
              (n + count_attachments api_operations) Hkeys Hinj)
    as (ops2 & -> & Hfresh & _). simpl.
  split_and!; [lia| |done..].
  intros a Ha. destruct (Hfresh a Ha) as (k & ? & ?).
  exists k. split; [lia|done].
Qed.

(** *** saveApi, whatever the tree *)

Lemma strip_uuid_fields a :
  policyId (strip_uuid a) = policyId a
  ∧ parameters (strip_uuid a) = parameters a
  ∧ others (strip_uuid a) = others a
  ∧ (uuid (strip_uuid a) = None ∨ uuid (strip_uuid a) = Some "").
Proof.
  unfold strip_uuid, Js.truthy.
  destruct a as [pid ps [u|] oth]; simpl; [|by split_and!; [..|left]].
  destruct (String.eqb_spec u "") as [->|]; simpl; split_and!; auto.
Qed.

(** X15: [saveApi] changes nothing but the lists: the payload has the
    operations of the tree with their target, verb and other properties
    and the very flows they had, and an operation without
    [operationPolicies] is handed over as it is. With the gateway
    unchanged every list keeps its length and order and every attachment
    its policyId, parameters and other fields; the uuid is gone, or is the
    empty string. *)
Theorem saveApi_keeps_the_rest isCC ops changed :
  length (operations (saveApi isCC ops changed)) = length ops
  ∧ (∀ k op, ops !! k = Some op →
       ∃ op', operations (saveApi isCC ops changed) !! k = Some op'
         ∧ target op' = target op ∧ verb op' = verb op
         ∧ opOthers op' = opOthers op
         ∧ (operationPolicies op = None → op' = op))
  ∧ (∀ k f, (∃ arr, flow_list ops k f arr) ↔
            (∃ arr', flow_list (operations (saveApi isCC ops changed)) k f arr'))
  ∧ (∀ k f arr, changed = false → flow_list ops k f arr →
       ∃ arr', flow_list (operations (saveApi isCC ops changed)) k f arr'
         ∧ length arr' = length arr
         ∧ ∀ j a, arr !! j = Some a →
             ∃ a', arr' !! j = Some a'
               ∧ policyId a' = policyId a ∧ parameters a' = parameters a
               ∧ others a' = others a
               ∧ (uuid a' = None ∨ uuid a' = Some "")).
Proof.
  split_and!.
  - simpl. by rewrite length_fmap.
  - intros k op Hop. simpl. rewrite list_lookup_fmap, Hop. simpl.
    eexists. split; [done|]. unfold reconcile_operation.
    destruct (operationPolicies op) eqn:Hp; simpl; split_and!; done.
  - intros k f. split.
    + intros [arr Harr]. eexists. apply saveApi_flow_list. by exists arr.
    + intros [arr' (arr & Harr & _)%saveApi_flow_list]. by exists arr.
  - intros k f arr -> Harr. exists (strip_uuid <$> arr). split_and!.
    + apply saveApi_flow_list. exists arr.
      by rewrite reconcile_flow_unchanged.
    + by rewrite length_fmap.
    + intros j a Hj. exists (strip_uuid a).
      split; [by rewrite list_lookup_fmap, Hj|]. apply strip_uuid_fields.
Qed.

(** *** The two locators in Choreo Connect mode *)

(** X16: with Choreo Connect enabled [updateApiOperations] picks the first
    operation of the target, whatever its verb, while [deleteApiOperation]
    and [rearrangeApiOperations] still match the verb. They pick the same
    operation when its verb is the verb argument up to case; when it is
    not, no call of theirs with that target and verb ever touches the
    operation [updateApiOperations] edits. *)
Theorem constrained_mode_locators_differ ops target verb i op :
  operationInAction true ops target verb = Some (i, op) →
  (toLowerCase (Types.verb op) = toLowerCase verb →
   list_find (match_target_verb target verb) ops = Some (i, op))
  ∧ (toLowerCase (Types.verb op) ≠ toLowerCase verb →
     (∀ flow uuid ops',
        deleteApiOperation ops uuid target verb flow = Some ops' →
        ops' !! i = Some op)
     ∧ (∀ flow oldIndex newIndex ops',
          rearrangeApiOperations ops oldIndex newIndex target verb flow
          = Some ops' →
          ops' !! i = Some op)).
Proof.
  unfold operationInAction. intros (Hi & Ht & Hleast)%list_find_Some.
  split.
  - intros Hv. apply list_find_Some. split_and!; [done|by split|].
    intros j y Hj Hlt [Hy _]. by apply (Hleast j y).
  - intros Hv.
    assert (∀ i2 op2 x,
              list_find (match_target_verb target verb) ops = Some (i2, op2) →
              <[i2 := x]> ops !! i = Some op) as Hother.
    { intros i2 op2 x (Hi2 & [_ Hv2] & _)%list_find_Some.
      rewrite list_lookup_insert_ne; [done|]. intros ->. congruence. }
    split.
    + intros flow uuid ops'
        (i2 & op2 & pols & arr & Hfind & _ & _ & ->)%deleteApiOperation_Some.
      by eapply Hother.
    + intros flow oldIndex newIndex ops'
        (i2 & op2 & pols & arr & Hfind & _ & _ & ->)%rearrangeApiOperations_Some.
      by eapply Hother.
Qed.

(** *** rearrangeApiOperations, there and back *)

Lemma take_delete_middle {A} (l : list A) i x :
  l !! i = Some x → take i (delete i l) ++ x :: drop i (delete i l) = l.
Proof.
  intros Hx. pose proof (lookup_lt_Some _ _ _ Hx) as Hlt.
  rewrite delete_take_drop.
  rewrite take_app_length' by (rewrite length_take; lia).
  rewrite drop_app_length' by (rewrite length_take; lia).
  by apply take_drop_middle.
Qed.

Lemma arrayMove_back {A} (l : list A) from to :
  from < length l → to < length l →
  arrayMove (arrayMove l from to) to from = l.
Proof.
  intros Hfrom Hto.
  destruct (lookup_lt_is_Some_2 l from Hfrom) as [x Hx].
  assert (arrayMove l from to !! to = Some x) as Hat.
  { by rewrite arrayMove_lookup. }
  rewrite (arrayMove_valid _ _ _ x Hat) by (by rewrite arrayMove_length).
  rewrite arrayMove_delete by done.
  by apply take_delete_middle.
Qed.

(** X17: moving an attachment and moving it back gives the tree as it
    was, moving it onto its own place changes nothing, and a move neither
    adds nor drops an attachment ([arrayMove] as the spec words it, both
    indices within the list). *)
Theorem rearrange_there_and_back ops oldIndex newIndex target verb flow
    i op pols arr :
  list_find (match_target_verb target verb) ops = Some (i, op) →
  operationPolicies op = Some pols →
  pols !! flow = Some arr →
  oldIndex < length arr → newIndex < length arr →
  ∃ ops',
    rearrangeApiOperations ops oldIndex newIndex target verb flow = Some ops'
    ∧ rearrangeApiOperations ops' newIndex oldIndex target verb flow = Some ops
    ∧ (oldIndex = newIndex → ops' = ops)
    ∧ (∀ a, attached ops' a ↔ attached ops a).
Proof.
  intros Hop Hp Ha Hold Hnew.
  assert (ops !! i = Some op) as Hi by (by apply list_find_Some in Hop as (? & _)).
  set (arr' := arrayMove arr oldIndex newIndex).
  assert (rearrangeApiOperations ops oldIndex newIndex target verb flow
          = Some (<[i := set_flow op pols flow arr']> ops)) as Hrun.
  { unfold rearrangeApiOperations.
    rewrite Hop; simpl. rewrite Hp; simpl. by rewrite Ha. }
  exists (<[i := set_flow op pols flow arr']> ops). split_and!.
  - done.
  - unfold rearrangeApiOperations.
    pose proof (operationInAction_set_flow false ops target verb i op pols
                  flow arr' Hop) as Hfind'.
    unfold operationInAction in Hfind'. rewrite Hfind'. simpl.
    rewrite lookup_insert_eq. simpl. f_equal.
    rewrite list_insert_insert_eq, set_flow_set_flow.
    unfold arr'. rewrite arrayMove_back by done.
    rewrite (set_flow_id op pols flow arr Hp Ha). by apply list_insert_id.
  - intros <-. unfold arr'.
    destruct (lookup_lt_is_Some_2 arr oldIndex Hold) as [x Hx].
    rewrite (arrayMove_valid _ _ _ x Hx Hold), (take_delete_middle _ _ _ Hx).
    rewrite (set_flow_id op pols flow arr Hp Ha). by apply list_insert_id.
  - intros a. split.
    + apply (attached_set_flow_part _ _ _ _ _ arr); try done.
      intros b. unfold arr'. by rewrite arrayMove_Permutation.
    + intros (k & f & l & Hl & Hin).
      destruct (decide ((k, f) = (i, flow))) as [[= -> ->]|Hne].
      * exists i, flow, arr'. split.
        -- apply flow_list_set_flow; [done..|]. by left.
        -- destruct Hl as (op1 & pols1 & ? & ? & ?).
           assert (l = arr) as -> by congruence.
           unfold arr'. by rewrite arrayMove_Permutation.
      * exists k, f, l. split; [|done].
        apply flow_list_set_flow; [done..|]. by right.
Qed.

(** *** fetchPolicies, further *)

Lemma elem_of_policies apiSpecificPolicies commonPolicies p :
  p ∈ policies (fetchPolicies apiSpecificPolicies commonPolicies) ↔
  supportsSynapse p
  ∧ last (filter (λ q, displayName q = displayName p)
            (commonPolicies ++ apiSpecificPolicies)) = Some p.
Proof.
  simpl. rewrite list_elem_of_filter, sort_Permutation.
  by rewrite elem_of_unionByPolicyDisplayName.
Qed.

Lemma map_set_length {V} (m : list (string * V)) k v :
  length (Js.map_set m k v) ≤ S (length m).
Proof.
  induction m as [|[k0 v0] m IH]; simpl; [lia|].
  case_decide; simpl; lia.
Qed.

Lemma unionByPolicyDisplayName_length l :
  length (unionByPolicyDisplayName l) ≤ length l.
Proof.
  unfold unionByPolicyDisplayName, Js.map_values. rewrite length_fmap.
  induction l as [|x l IH] using rev_ind; [done|].
  rewrite foldl_snoc, length_app. simpl.
  etrans; [apply map_set_length|]. lia.
Qed.

(** X18: every entry of the selectable catalog supports [Synapse] and is
    an entry of the list kept for look-up by id, so a catalog entry can
    always be looked up; the catalog is never longer than that list. *)
Theorem catalog_within_allPolicies apiSpecificPolicies commonPolicies :
  (∀ p, p ∈ policies (fetchPolicies apiSpecificPolicies commonPolicies) →
     supportsSynapse p
     ∧ p ∈ allPolicies (fetchPolicies apiSpecificPolicies commonPolicies))
  ∧ length (policies (fetchPolicies apiSpecificPolicies commonPolicies))
    ≤ length (allPolicies (fetchPolicies apiSpecificPolicies commonPolicies)).
Proof.
  split.
  - intros p [Hs Hlast]%elem_of_policies. split; [done|]. simpl.
    by apply last_filter_displayName in Hlast as [_ ?].
  - simpl. etrans; [apply length_filter|].
    rewrite sort_Permutation. apply unionByPolicyDisplayName_length.
Qed.

(** X19: the union by display name is taken before the filter: when the
    last entry of the merged list under a display name does not support
    [Synapse], the catalog has no entry of that name, even if an earlier
    entry of the same name supports it. *)
Theorem shadowing_entry_hides_name apiSpecificPolicies commonPolicies d q :
  last (filter (λ p, displayName p = d)
          (commonPolicies ++ apiSpecificPolicies)) = Some q →
  ¬ supportsSynapse q →
  ∀ p, p ∈ policies (fetchPolicies apiSpecificPolicies commonPolicies) →
       displayName p ≠ d.
Proof.
  intros Hlast Hq p [Hs Hp]%elem_of_policies <-.
  assert (p = q) as -> by congruence. done.
Qed.

Lemma NoDup_fmap_eq {A B} (f : A → B) (l : list A) x y :
  NoDup (f <$> l) → x ∈ l → y ∈ l → f x = f y → x = y.
Proof.
  intros Hnd [i Hi]%list_elem_of_lookup [j Hj]%list_elem_of_lookup Hxy.
  assert (i = j) as ->; [|congruence].
  apply (NoDup_lookup _ i j (f x) Hnd).
  - by rewrite list_lookup_fmap, Hi.
  - by rewrite list_lookup_fmap, Hj, Hxy.
Qed.

Lemma last_filter_distinct (l : list Policy) p :
  NoDup (displayName <$> l) → p ∈ l →
  last (filter (λ q, displayName q = displayName p) l) = Some p.
Proof.
  intros Hnd Hp.
  destruct (last (filter (λ q, displayName q = displayName p) l))
    as [x|] eqn:Hlast.
  - apply last_filter_displayName in Hlast as [Hname Hx].
    f_equal. by apply (NoDup_fmap_eq displayName l).
  - apply last_None in Hlast.
    by destruct (filter_nil_not_elem_of _ _ p Hlast).
Qed.

(** X20: when no display name occurs twice in the two responses together,
    the union drops nothing: the catalog holds exactly the entries that
    support [Synapse], each once. *)
Theorem distinct_names_lose_nothing apiSpecificPolicies commonPolicies :
  NoDup (displayName <$> commonPolicies ++ apiSpecificPolicies) →
  policies (fetchPolicies apiSpecificPolicies commonPolicies)
  ≡ₚ filter supportsSynapse (commonPolicies ++ apiSpecificPolicies).
Proof.
  intros Hnd. simpl. apply filter_Permutation. rewrite sort_Permutation.
  apply NoDup_Permutation.
  - eapply NoDup_fmap_1, unionByPolicyDisplayName_NoDup.
  - by eapply NoDup_fmap_1.
  - intros p. rewrite elem_of_unionByPolicyDisplayName. split.
    + by intros [_ ?]%last_filter_displayName.
    + by apply last_filter_distinct.
Qed.

(** *** Editing and deleting by identifier in a tree with unique
    identifiers *)

Lemma deleteApiOperation_first ops uuid target verb flow i op pols arr j a :
  list_find (match_target_verb target verb) ops = Some (i, op) →
  operationPolicies op = Some pols →
  pols !! flow = Some arr →
  arr !! j = Some a → Types.uuid a = Some uuid →
  (∀ k b, arr !! k = Some b → k < j → Types.uuid b ≠ Some uuid) →
  deleteApiOperation ops uuid target verb flow
  = Some (<[i := set_flow op pols flow (delete j arr)]> ops).
Proof.
  intros Hop Hp Ha Hj Hu Hfirst.
  pose proof (lookup_lt_Some _ _ _ Hj) as Hlt.
  assert (Js.indexOf (Types.uuid <$> arr) (Some uuid) = Z.of_nat j) as Hindex.
  { apply indexOf_first.
    - by rewrite list_lookup_fmap, Hj; simpl; rewrite Hu.
    - intros k y Hk Hkj. rewrite list_lookup_fmap in Hk.
      destruct (arr !! k) as [b|] eqn:Hb; [|done]. injection Hk as <-.
      by apply (Hfirst k b). }
  unfold deleteApiOperation. rewrite Hop; simpl. rewrite Hp; simpl.
  rewrite Ha; simpl. by rewrite Hindex, splice_one.
Qed.

(** In a list without a repeated identifier, the place of an identifier is
    the first place that has it. *)
Lemma NoDup_uuid_first (arr : list ApiPolicy) j a k b :
  NoDup (uuid <$> arr) →
  arr !! j = Some a → arr !! k = Some b → uuid b = uuid a → k = j.
Proof.
  intros Hnd Hj Hk Hu. apply (NoDup_lookup _ k j (uuid a) Hnd).
  - by rewrite list_lookup_fmap, Hk; simpl; rewrite Hu.
  - by rewrite list_lookup_fmap, Hj.
Qed.

(** X21: in a tree where no identifier occurs twice, deleting the
    identifier of an attachment of the list removes that attachment from
    the tree and nothing else: the attachments of the new tree are those
    of the old one that carry another identifier. *)
Theorem delete_by_uuid_removes_exactly_one ops uuid target verb flow
    i op pols arr a :
  ids_unique ops →
  list_find (match_target_verb target verb) ops = Some (i, op) →
  operationPolicies op = Some pols →
  pols !! flow = Some arr →
  a ∈ arr → Types.uuid a = Some uuid →
  ∃ ops',
    deleteApiOperation ops uuid target verb flow = Some ops'
    ∧ ∀ b, attached ops' b ↔ attached ops b ∧ Types.uuid b ≠ Some uuid.
Proof.
  intros [Hin Hout] Hop Hp Ha [j Hj]%list_elem_of_lookup Hu.
  assert (ops !! i = Some op) as Hi by (by apply list_find_Some in Hop as (? & _)).
  assert (flow_list ops i flow arr) as Harr by (by exists op, pols).
  pose proof (Hin i flow arr Harr) as Hnd.
  exists (<[i := set_flow op pols flow (delete j arr)]> ops). split.
  - apply (deleteApiOperation_first _ _ _ _ _ _ _ _ _ j a); try done.
    intros k b Hk Hlt Hb.
    assert (k = j); [|lia].
    apply (NoDup_uuid_first arr j a k b); congruence.
  - intros b. split.
    + intros (k & f & l & [(-> & -> & ->)|[Hne Hl]]%flow_list_set_flow & Hb);
        [| |done..].
      * apply list_elem_of_lookup in Hb as [m Hm].
        rewrite list_lookup_delete in Hm. split.
        -- exists i, flow, arr. split; [done|].
           case_decide; by eapply list_elem_of_lookup_2.
        -- intros Hbu.
           case_decide;
             (assert (Types.uuid b = Types.uuid a) as Heq by congruence);
             pose proof (NoDup_uuid_first arr j a _ b Hnd Hj Hm Heq); lia.
      * split; [by exists k, f, l|].
        intros Hbu.
        assert (a ∈ arr) as Hain by (by eapply list_elem_of_lookup_2).
        apply (Hout k f l i flow arr b a Hl Harr Hne Hb Hain). congruence.
    + intros [(k & f & l & Hl & Hb) Hbu].
      destruct (decide ((k, f) = (i, flow))) as [[= -> ->]|Hne].
      * destruct Hl as (op1 & pols1 & ? & ? & ?).
        assert (l = arr) as -> by congruence.
        apply list_elem_of_lookup in Hb as [m Hm].
        assert (m ≠ j) as Hmj by (intros ->; congruence).
        exists i, flow, (delete j arr). split.
        -- apply flow_list_set_flow; [done..|]. by left.
        -- apply list_elem_of_lookup.
           destruct (decide (m < j)).
           ++ exists m. by rewrite list_lookup_delete_lt.
           ++ exists (pred m). rewrite list_lookup_delete_ge by lia.
              by replace (S (pred m)) with m by lia.
      * exists k, f, l. split; [|done].
        apply flow_list_set_flow; [done..|]. by right.
Qed.

(** X22: in a tree where no identifier occurs twice, an incoming
    attachment that bears the policyId and the uuid of an attachment of
    the list edits that very attachment, wherever it stands: it takes the
    incoming parameters, the other entries of the list stay as they are,
    and no identifier is drawn. *)
Theorem edit_by_uuid_hits_its_attachment isCC ops att target verb flow n
    i op pols arr j a :
  ids_unique ops →
  operationInAction isCC ops target verb = Some (i, op) →
  operationPolicies op = Some pols →
  pols !! flow = Some arr →
  arr !! j = Some a → same_policy att a →
  ∃ ops',
    updateApiOperations isCC ops att target verb flow n = (Some ops', n)
    ∧ only_flow_changed ops ops' i flow
        (<[j := set_parameters a (parameters att)]> arr).
Proof.
  intros [Hin _] Hop Hp Ha Hj Hsame.
  pose proof (operationInAction_lookup _ _ _ _ _ _ Hop) as Hi.
  assert (NoDup (uuid <$> arr)) as Hnd.
  { apply (Hin i flow). by exists op, pols. }
  assert (list_find (same_policy att) arr = Some (j, a)) as Hfind.
  { apply list_find_Some. split_and!; [done..|].
    intros k b Hk Hlt [_ Hb].
    assert (k = j); [|lia].
    apply (NoDup_uuid_first arr j a k b); try done.
    destruct Hsame as [_ Hu]. congruence. }
  eexists. split.
  - rewrite (updateApiOperations_found _ _ _ _ _ _ _ _ _ _ _ Hop Hp Ha).
    by rewrite Hfind.
  - by apply set_flow_only_flow_changed.
Qed.

End Policies.

(** ** The handlers on the sample tree *)

(** C1: [deleteApiOperation] with a uuid that no attachment of the list
    carries does not leave the list as it was: [indexOf] answers [-1] and
    [splice(-1, 1)] removes the last attachment. Here the request flow of
    [GET /pets] holds the attachments [U1], [U2] and [U3]; deleting [U9]
    leaves [U1] and [U2]. *)
Theorem deleteApiOperation_unknown_uuid_removes_last :
  (Some "U9" ∉ uuid <$> [rateLimit; addHeader; logMessage])
  ∧ flow_list [getPets; postPets] 0 "request"
      [rateLimit; addHeader; logMessage]
  ∧ ∃ ops',
      deleteApiOperation Js.lower_string [getPets; postPets]
        "U9" "/pets" "GET" "request" = Some ops'
      ∧ flow_list ops' 0 "request" [rateLimit; addHeader].
Proof.
  split_and!.
  - apply (bool_decide_unpack _). by vm_compute.
  - by exists getPets, getPetsPolicies.
  - eexists. split.
    + apply (deleteApiOperation_absent Js.lower_string _ _ _ _ _ 0 getPets
               getPetsPolicies [rateLimit; addHeader; logMessage]); try done.
      apply (bool_decide_unpack _). by vm_compute.
    + eexists _, _. by split_and!.
Qed.

(** C6 as stated fails when a display name occurs twice: the list kept for
    look-up by id holds both entries, the union by display name one. *)
Lemma allPolicies_not_deduplicated :
  allPolicies (fetchPolicies compare_length [apiRateLimit] [commonRateLimit])
  = [commonRateLimit; apiRateLimit]
  ∧ unionByPolicyDisplayName ([commonRateLimit] ++ [apiRateLimit])
    = [apiRateLimit].
Proof. split; reflexivity. Qed.

(** *** The sample generator, order of visit and live tree *)

Lemma own_keys_spec : forIn_own_keys own_keys.
Proof.
  intros pols. split; [apply NoDup_fst_map_to_list|].
  intros flow. unfold own_keys. rewrite list_elem_of_fmap. split.
  - intros ([f arr] & -> & Hin%elem_of_map_to_list). by exists arr.
  - intros [arr Harr]. exists (flow, arr). split; [done|].
    by apply elem_of_map_to_list.
Qed.

Lemma tagged_uuid_inj : Inj (=) (=) tagged_uuid.
Proof. intros j k [= Heq]. by apply (inj pretty). Qed.

Lemma tagged_uuid_nonempty k : tagged_uuid k ≠ "".
Proof. done. Qed.

Lemma livePets_ids_generated : ids_generated tagged_uuid 2 [livePets].
Proof.
  intros a (k & flow & arr & (op & pols & Hk & Hp & Hf) & Ha).
  destruct k as [|k]; simpl in Hk; [|done].
  injection Hk as <-. injection Hp as <-.
  unfold livePetsPolicies in Hf.
  apply lookup_singleton_Some in Hf as [<- <-].
  apply elem_of_cons in Ha as [->|Ha]; [by exists 0; split; [lia|]|].
  apply elem_of_cons in Ha as [->|Ha]; [by exists 1; split; [lia|]|].
  by apply elem_of_nil in Ha.
Qed.

Lemma livePets_flow_list k flow arr :
  flow_list [livePets] k flow arr →
  k = 0 ∧ flow = "request" ∧ arr = [liveRateLimit; liveAddHeader].
Proof.
  intros (op & pols & Hk & Hp & Hf).
  destruct k as [|k]; simpl in Hk; [|done].
  injection Hk as <-. injection Hp as <-.
  unfold livePetsPolicies in Hf.
  by apply lookup_singleton_Some in Hf as [<- <-].
Qed.

Lemma livePets_ids_unique : ids_unique [livePets].
Proof.
  split.
  - intros k flow arr (-> & -> & ->)%livePets_flow_list.
    apply (bool_decide_unpack _). by vm_compute.
  - intros k flow arr k' flow' arr' a a'
      (-> & -> & ->)%livePets_flow_list (-> & -> & ->)%livePets_flow_list.
    done.
Qed.

(** *** Instances of the theorems *)

Lemma operationInAction_by_mode_witness :
  operationInAction Js.lower_string true [getPets; postPets] "/pets" "post"
  = Some (0, getPets)
  ∧ operationInAction Js.lower_string false [getPets; postPets] "/pets" "post"
    = Some (1, postPets).
Proof.
  pose proof (operationInAction_by_mode Js.lower_string
                [getPets; postPets] "/pets" "post") as (_ & Hcc & _ & Hreg & _).
  split.
  - apply Hcc. split_and!; [done..|]. intros j y _ Hj. lia.
  - apply Hreg. split_and!; [done..|].
    intros [|j] y Hy Hj [_ Hverb]; [|lia].
    injection Hy as <-. by vm_compute in Hverb.
Defined.

Lemma updateApiOperations_edit_or_add_witness :
  ∃ ops' arr' n',
    updateApiOperations Js.lower_string counter_uuid false [getPets; postPets]
      (set_parameters addHeader {["name" := "x"]}) "/pets" "get" "request" 7
    = (Some ops', n')
    ∧ only_flow_changed [getPets; postPets] ops' 0 "request" arr'
    ∧ n' = 7 ∧ length arr' = 3
    ∧ arr' !! 0 = Some rateLimit
    ∧ (parameters <$> arr' !! 1) = Some {["name" := "x"]}
    ∧ arr' !! 2 = Some logMessage.
Proof.
  destruct (updateApiOperations_edit_or_add Js.lower_string counter_uuid
              false [getPets; postPets]
              (set_parameters addHeader {["name" := "x"]})
              "/pets" "get" "request" 7 0 getPets getPetsPolicies
              [rateLimit; addHeader; logMessage])
    as (ops' & arr' & n' & Hrun & Honly & Hedit & _); [done..|].
  destruct (Hedit 1 addHeader) as (Hn & Hlen & Hother & p' & Hp' & Hpar & _).
  { done. }
  { done. }
  { intros [|k] q Hq Hk [Hid _]; [|lia]. by injection Hq as <-. }
  exists ops', arr', n'. split_and!; [done..| | |].
  - by rewrite Hother.
  - by rewrite Hp'; simpl; rewrite Hpar.
  - by rewrite Hother.
Defined.

Lemma updateAllApiOperations_fresh_per_operation_witness :
  ∃ ops' ids,
    updateAllApiOperations counter_uuid [getPets; postPets]
      addHeader "response" 3 = (Some ops', 5)
    ∧ length ops' = 2 ∧ length ids = 2 ∧ NoDup ids
    ∧ (∃ new u, flow_list ops' 1 "response" ([addHeader] ++ [new])
         ∧ ids !! 1 = Some u ∧ uuid new = Some u).
Proof.
  destruct (updateAllApiOperations_fresh_per_operation counter_uuid
              [getPets; postPets] addHeader "response" 3)
    as (ops' & ids & Hrun & Hlen & Hids & Hnd & Hnew & _).
  { unfold counter_uuid. apply _. }
  { repeat constructor; eexists _, _; by split. }
  destruct (Hnew 1 [addHeader]) as (new & u & Hflow & Hu & Hnewu & _).
  { eexists _, _. by split_and!. }
  exists ops', ids. split_and!; [done..|]. by exists new, u.
Defined.

Lemma appended_uuid_from_generator_witness :
  ∃ ops' new,
    updateApiOperations Js.lower_string counter_uuid true [getPets; postPets]
      rateLimit "/pets" "post" "fault" 4 = (Some ops', 5)
    ∧ flow_list ops' 0 "fault" ([] ++ [new])
    ∧ uuid rateLimit = Some "U1"
    ∧ uuid new = Some (counter_uuid 4).
Proof.
  pose proof (appended_uuid_from_generator Js.lower_string counter_uuid)
    as (Hadd & _).
  destruct (Hadd true [getPets; postPets] rateLimit "/pets" "post" "fault" 4
              0 getPets getPetsPolicies [])
    as (ops' & new & Hrun & Hflow & Hu & _); [done..|].
  by exists ops', new.
Defined.

Lemma rearrangeApiOperations_moves_witness :
  ∃ ops' arr',
    rearrangeApiOperations Js.lower_string [getPets; postPets] 0 2
      "/pets" "get" "request" = Some ops'
    ∧ only_flow_changed [getPets; postPets] ops' 0 "request" arr'
    ∧ length arr' = 3
    ∧ arr' !! 2 = Some rateLimit
    ∧ delete 2 arr' = [addHeader; logMessage].
Proof.
  destruct (rearrangeApiOperations_moves Js.lower_string [getPets; postPets]
              0 2 "/pets" "get" "request" 0 getPets getPetsPolicies
              [rateLimit; addHeader; logMessage])
    as (ops' & arr' & Hrun & Honly & Hlen & Hat & Hrest & _);
    [done..|simpl; lia|simpl; lia|].
  by exists ops', arr'.
Defined.

Lemma saveApi_gateway_changed_empties_flows_witness :
  flow_list (operations (saveApi true [getPets; postPets] true))
    0 "request" [].
Proof.
  pose proof (saveApi_gateway_changed_empties_flows true [getPets; postPets])
    as (_ & Hempty & _).
  apply (Hempty 0 "request" [rateLimit; addHeader; logMessage]).
  eexists _, _. by split_and!.
Defined.

Lemma saveApi_strips_uuid_witness :
  flow_list (operations (saveApi false [livePets] false)) 0 "request"
    [delete_uuid liveRateLimit; delete_uuid liveAddHeader]
  ∧ ∀ a, attached (operations (saveApi false [livePets] false)) a →
         uuid a = None.
Proof.
  destruct (saveApi_strips_uuid tagged_uuid false 2 [livePets]
              tagged_uuid_nonempty livePets_ids_generated)
    as [Hflows Hnone].
  split; [|done].
  apply (Hflows 0 "request" [liveRateLimit; liveAddHeader]).
  eexists _, _. by split_and!.
Defined.

Lemma fetchPolicies_selectable_catalog_witness :
  policies (fetchPolicies compare_length [apiRateLimit]
              [commonRateLimit; commonAddHeader])
  = [apiRateLimit; commonAddHeader]
  ∧ NoDup (displayName <$>
             policies (fetchPolicies compare_length [apiRateLimit]
                         [commonRateLimit; commonAddHeader]))
  ∧ StronglySorted
      (λ a b, (compare_length (displayName a) (displayName b) ≤ 0)%Z)
      (policies (fetchPolicies compare_length [apiRateLimit]
                   [commonRateLimit; commonAddHeader])).
Proof.
  destruct (fetchPolicies_selectable_catalog compare_length [apiRateLimit]
              [commonRateLimit; commonAddHeader])
    as (_ & Hnd & _ & _ & Hsorted).
  { intros a b. unfold compare_length. lia. }
  { intros a b c. unfold compare_length. lia. }
  split_and!; [reflexivity|done..].
Defined.

(** *** Instances of the further properties *)

Lemma getInitState_keeps_structure_witness :
  ∃ ops',
    getInitState tagged_uuid own_keys [getPets; postPets] 0
    = (Some ops', 0 + count_attachments own_keys [getPets; postPets])
    ∧ length ops' = length [getPets; postPets]
    ∧ ∃ arr', flow_list ops' 0 "request" arr'
              ∧ length arr' = length [rateLimit; addHeader; logMessage].
Proof.
  destruct (getInitState_keeps_structure tagged_uuid own_keys
              [getPets; postPets] 0 own_keys_spec)
    as (ops' & Hrun & Hlen & _ & Hflows & _).
  destruct (Hflows 0 "request" [rateLimit; addHeader; logMessage])
    as (arr' & Harr' & Hlen' & _).
  { exists getPets, getPetsPolicies. split_and!; reflexivity. }
  exists ops'. split; [exact Hrun|]. split; [exact Hlen|].
  exists arr'. split; [exact Harr'|exact Hlen'].
Defined.

Lemma getInitState_fresh_unique_ids_witness :
  ∃ ops',
    getInitState tagged_uuid own_keys [getPets; postPets] 5
    = (Some ops', 5 + count_attachments own_keys [getPets; postPets])
    ∧ ids_unique ops'.
Proof.
  destruct (getInitState_fresh_unique_ids tagged_uuid own_keys
              [getPets; postPets] 5 own_keys_spec tagged_uuid_inj)
    as (ops' & Hrun & _ & _ & Huniq).
  exists ops'. split; [exact Hrun|exact Huniq].
Defined.

Lemma getInitState_saveApi_round_trip_witness :
  ∃ ops',
    getInitState tagged_uuid own_keys [getPets; postPets] 0
    = (Some ops', 0 + count_attachments own_keys [getPets; postPets])
    ∧ operations (saveApi false ops' false)
      = without_uuids <$> [getPets; postPets].
Proof.
  destruct (getInitState_saveApi_round_trip tagged_uuid own_keys false
              [getPets; postPets] 0 own_keys_spec tagged_uuid_nonempty)
    as (ops' & Hrun & Hpayload & _).
  exists ops'. split; [exact Hrun|exact Hpayload].
Defined.

Lemma deleteApiOperation_known_uuid_witness :
  ∃ ops',
    deleteApiOperation Js.lower_string [getPets; postPets]
      "U2" "/pets" "get" "request" = Some ops'
    ∧ only_flow_changed [getPets; postPets] ops' 0 "request"
        [rateLimit; logMessage].
Proof.
  destruct (deleteApiOperation_known_uuid Js.lower_string [getPets; postPets]
              "U2" "/pets" "get" "request" 0 getPets getPetsPolicies
              [rateLimit; addHeader; logMessage] 1 addHeader)
    as (ops' & Hrun & Honly & _); [done..| |].
  { intros [|k] b Hk Hlt; [|lia]. by injection Hk as <-. }
  by exists ops'.
Defined.


Lemma add_then_delete_restores_witness :
  ∃ ops',
    updateApiOperations Js.lower_string tagged_uuid false [getPets; postPets]
      droppedPolicy "/pets" "get" "request" 0 = (Some ops', 1)
    ∧ deleteApiOperation Js.lower_string ops' (tagged_uuid 0)
        "/pets" "get" "request" = Some [getPets; postPets].
Proof.
  destruct (add_then_delete_restores Js.lower_string tagged_uuid false
              [getPets; postPets] droppedPolicy "/pets" "get" "request" 0
              0 getPets getPetsPolicies [rateLimit; addHeader; logMessage])
    as (ops' & Hrun & _ & Hback); [done..| | |].
  { apply (bool_decide_unpack _). by vm_compute. }
  { apply (bool_decide_unpack _). by vm_compute. }
  by exists ops'.
Defined.

Lemma add_then_edit_in_place_witness :
  ∃ ops' ops'',
    updateApiOperations Js.lower_string tagged_uuid true [getPets; postPets]
      droppedPolicy "/pets" "put" "request" 0 = (Some ops', 1)
    ∧ updateApiOperations Js.lower_string tagged_uuid true ops'
        (set_parameters (set_uuid droppedPolicy (tagged_uuid 0))
           {["a" := "2"]})
        "/pets" "put" "request" 1 = (Some ops'', 1)
    ∧ length ops'' = 2.
Proof.
  destruct (add_then_edit_in_place Js.lower_string tagged_uuid true
              [getPets; postPets] droppedPolicy {["a" := "2"]}
              "/pets" "put" "request" 0
              0 getPets getPetsPolicies [rateLimit; addHeader; logMessage])
    as (ops' & ops'' & Hadd & Hedit & Hlen & _); [done..| | |].
  { apply (bool_decide_unpack _). by vm_compute. }
  { apply (bool_decide_unpack _). by vm_compute. }
  by exists ops', ops''.
Defined.

Lemma new_attachment_is_appended_witness :
  ∃ ops',
    updateApiOperations Js.lower_string tagged_uuid false [livePets]
      droppedPolicy "/pets" "GET" "request" 2 = (Some ops', 3)
    ∧ only_flow_changed [livePets] ops' 0 "request"
        ([liveRateLimit; liveAddHeader]
           ++ [set_uuid droppedPolicy (tagged_uuid 2)]).
Proof.
  destruct (new_attachment_is_appended Js.lower_string tagged_uuid false
              [livePets] droppedPolicy "/pets" "GET" "request" 2
              0 livePets livePetsPolicies [liveRateLimit; liveAddHeader]
              livePets_ids_generated)
    as (ops' & Hrun & Honly); [done..|].
  by exists ops'.
Defined.

Lemma session_identifiers_stay_unique_witness :
  ids_unique
    (st_apiOperations
       (dispatch Js.lower_string tagged_uuid own_keys
          (mount tagged_uuid own_keys [getPets; postPets] "wso2" 0)
          (UpdateAllApiOperations droppedPolicy "response"))).
Proof.
  destruct (session_identifiers_stay_unique Js.lower_string tagged_uuid
              own_keys [getPets; postPets] "wso2" 0
              (dispatch Js.lower_string tagged_uuid own_keys
                 (mount tagged_uuid own_keys [getPets; postPets] "wso2" 0)
                 (UpdateAllApiOperations droppedPolicy "response"))
              own_keys_spec tagged_uuid_inj) as [_ Huniq]; [|done].
  apply reachable_dispatch; [apply reachable_here|done].
Defined.

Lemma session_never_sends_uuid_witness :
  Forall (λ payload, ∀ a, attached (operations payload) a → uuid a = None)
    (st_sent
       (dispatch Js.lower_string tagged_uuid own_keys
          (mount tagged_uuid own_keys [getPets; postPets] "wso2" 0)
          (SaveApi false))).
Proof.
  apply Forall_forall. intros payload Hin a.
  apply (session_never_sends_uuid Js.lower_string tagged_uuid own_keys
           [getPets; postPets] "wso2" 0
           (dispatch Js.lower_string tagged_uuid own_keys
              (mount tagged_uuid own_keys [getPets; postPets] "wso2" 0)
              (SaveApi false))
           own_keys_spec tagged_uuid_inj tagged_uuid_nonempty); [|done].
  apply reachable_dispatch; [apply reachable_here|done].
Defined.

Lemma mount_draws_twice_witness :
  st_drawn (mount tagged_uuid own_keys [getPets; postPets] "wso2" 0)
  = 0 + 2 * count_attachments own_keys [getPets; postPets]
  ∧ count_attachments own_keys [getPets; postPets] = 4.
Proof.
  destruct (mount_draws_twice tagged_uuid own_keys [getPets; postPets]
              "wso2" 0 own_keys_spec tagged_uuid_inj) as (Hdrawn & _).
  split; [done|by vm_compute].
Defined.

Lemma constrained_mode_locators_differ_witness :
  operationInAction Js.lower_string true [postPets; getPets] "/pets" "get"
  = Some (0, postPets)
  ∧ ∃ ops',
      deleteApiOperation Js.lower_string [postPets; getPets]
        "U1" "/pets" "get" "request" = Some ops'
      ∧ ops' !! 0 = Some postPets.
Proof.
  destruct (constrained_mode_locators_differ Js.lower_string
              [postPets; getPets] "/pets" "get" 0 postPets)
    as [_ Hdiff]; [done|].
  destruct Hdiff as [Hdelete _]; [by vm_compute|].
  split; [done|]. eexists. split; [reflexivity|].
  by apply (Hdelete "request" "U1").
Defined.

Lemma rearrange_there_and_back_witness :
  ∃ ops',
    rearrangeApiOperations Js.lower_string [getPets; postPets] 2 0
      "/pets" "get" "request" = Some ops'
    ∧ rearrangeApiOperations Js.lower_string ops' 0 2
        "/pets" "get" "request" = Some [getPets; postPets].
Proof.
  destruct (rearrange_there_and_back Js.lower_string [getPets; postPets]
              2 0 "/pets" "get" "request" 0 getPets getPetsPolicies
              [rateLimit; addHeader; logMessage])
    as (ops' & Hrun & Hback & _); [done..|simpl; lia|simpl; lia|].
  by exists ops'.
Defined.

Lemma shadowing_entry_hides_name_witness :
  Forall (λ p, displayName p ≠ "Rate Limit")
    (policies (fetchPolicies compare_length [apiRateLimitCC]
                 [commonRateLimit; commonAddHeader])).
Proof.
  apply Forall_forall. intros p.
  apply (shadowing_entry_hides_name compare_length [apiRateLimitCC]
           [commonRateLimit; commonAddHeader] "Rate Limit" apiRateLimitCC).
  - done.
  - unfold supportsSynapse. simpl. apply (bool_decide_unpack _). by vm_compute.
Defined.

Lemma distinct_names_lose_nothing_witness :
  policies (fetchPolicies compare_length [apiRateLimit] [commonAddHeader])
  ≡ₚ [commonAddHeader; apiRateLimit].
Proof.
  apply (distinct_names_lose_nothing compare_length [apiRateLimit]
           [commonAddHeader]).
  apply (bool_decide_unpack _). by vm_compute.
Defined.

Lemma delete_by_uuid_removes_exactly_one_witness :
  ∃ ops',
    deleteApiOperation Js.lower_string [livePets] "u0" "/pets" "GET" "request"
    = Some ops'
    ∧ ∀ b, attached ops' b ↔ attached [livePets] b ∧ uuid b ≠ Some "u0".
Proof.
  apply (delete_by_uuid_removes_exactly_one Js.lower_string [livePets]
           "u0" "/pets" "GET" "request" 0 livePets livePetsPolicies
           [liveRateLimit; liveAddHeader] liveRateLimit livePets_ids_unique).
  - reflexivity.
  - reflexivity.
  - reflexivity.
  - apply elem_of_cons. by left.
  - reflexivity.
Defined.

Lemma edit_by_uuid_hits_its_attachment_witness :
  ∃ ops',
    updateApiOperations Js.lower_string tagged_uuid false [livePets]
      (set_parameters liveAddHeader {["h" := "x"]})
      "/pets" "GET" "request" 2 = (Some ops', 2)
    ∧ only_flow_changed [livePets] ops' 0 "request"
        [liveRateLimit; set_parameters liveAddHeader {["h" := "x"]}].
Proof.
  destruct (edit_by_uuid_hits_its_attachment Js.lower_string tagged_uuid false
              [livePets] (set_parameters liveAddHeader {["h" := "x"]})
              "/pets" "GET" "request" 2 0 livePets livePetsPolicies
              [liveRateLimit; liveAddHeader] 1 liveAddHeader
              livePets_ids_unique)
    as (ops' & Hrun & Honly).
  - reflexivity.
  - reflexivity.
  - reflexivity.
  - reflexivity.
  - split; reflexivity.
  - exists ops'. split; [exact Hrun|exact Honly].
Defined.
